(** * hetzner_manager.go: the manager of the Hetzner cloud provider

    A shallow embedding of
    [cluster-autoscaler/cloudprovider/hetzner/hetzner_manager.go]:
    the manager constructor [newManager], the node resolution
    [serverForNode], [deleteByNode], [deleteServer], [allServers],
    [Refresh] and the draining-pool counter [addNodeToDrainingPool].

    Go pointers are addresses into an explicit store, the process
    environment and the remote cloud are threaded through a state monad that
    also records every call made on the hcloud client, and a nil
    dereference is a panic. *)

From Stdlib Require Import ZArith Lia Ascii String.
From stdpp Require Import base option list strings pretty gmap fin_maps.

Local Open Scope string_scope.
Local Open Scope list_scope.
Local Open Scope Z_scope.

(** ** Go's [strings] package, as far as the manager calls it *)

Module strings.

(** [strings.HasPrefix(s, prefix)]. *)
Definition HasPrefix (s prefix : string) : bool := String.prefix prefix s.

Fixpoint drop (n : nat) (s : string) : string :=
  match n, s with
  | O, _ => s
  | S n', String _ s' => drop n' s'
  | S _, EmptyString => EmptyString
  end.

(** [strings.TrimPrefix(s, prefix)]: [s[len(prefix):]] when [s] starts
    with [prefix], [s] itself otherwise. *)
Definition TrimPrefix (s prefix : string) : string :=
  if HasPrefix s prefix then drop (String.length prefix) s else s.

(** The pieces of [s] between the occurrences of [sep], scanning from the
    left: [cur] is the piece being read (reversed), [skip] counts the
    bytes of a separator just matched that are still to be passed. *)
Fixpoint split_from (sep : string) (skip : nat) (cur : list ascii) (s : string)
  : list string :=
  match s with
  | EmptyString => [string_of_list_ascii (rev cur)]
  | String c s' =>
      match skip with
      | S k => split_from sep k cur s'
      | O =>
          if String.prefix sep s
          then string_of_list_ascii (rev cur)
                 :: split_from sep (String.length sep - 1) [] s'
          else split_from sep O (c :: cur) s'
      end
  end.

(** [strings.Split(s, sep)] for a non-empty separator: all the substrings
    of [s] separated by [sep]; a string without [sep] (the empty string
    too) gives the one-element slice holding [s]. The manager only calls
    it with [","]; for the empty separator Go explodes [s] into its
    UTF-8 sequences, which is written here byte by byte. *)
Definition Split (s sep : string) : list string :=
  match sep with
  | EmptyString => map (λ c, String c EmptyString) (list_ascii_of_string s)
  | _ => split_from sep O [] s
  end.

(** [strings.Join(elems, sep)]: the elements with [sep] between them. *)
Fixpoint Join (elems : list string) (sep : string) : string :=
  match elems with
  | [] => ""
  | [x] => x
  | x :: rest => x +:+ sep +:+ Join rest sep
  end.

(** The occurrences of [sep] in [s] that do not overlap, scanning from the
    left like [split_from]. *)
Fixpoint count_from (sep : string) (skip : nat) (s : string) : nat :=
  match s with
  | EmptyString => O
  | String c s' =>
      match skip with
      | S k => count_from sep k s'
      | O =>
          if String.prefix sep s
          then S (count_from sep (String.length sep - 1) s')
          else count_from sep O s'
      end
  end.

(** [strings.Count(s, substr)]; for the empty [substr] Go counts the
    UTF-8 sequences of [s] plus one, which is written here on bytes. *)
Definition Count (s substr : string) : nat :=
  match substr with
  | EmptyString => S (String.length s)
  | _ => count_from substr O s
  end.

End strings.

(** ** Go's [int]

    [targetSize], [minSize] and [maxSize] are Go [int]s: 64-bit two's
    complement on the targets the autoscaler is built for. Arithmetic wraps
    around silently. *)

Definition int_bits : Z := 64.
Definition min_int : Z := - 2 ^ (int_bits - 1).
Definition max_int : Z := 2 ^ (int_bits - 1) - 1.

Definition int_wrap (z : Z) : Z := (z - min_int) mod 2 ^ int_bits + min_int.

(** [a + b] on [int]. *)
Definition int_add (a b : Z) : Z := int_wrap (a + b).

Definition is_int (z : Z) : Prop := min_int ≤ z ≤ max_int.

(** ** The template function catalog

    The functions of Go's [strings] package that the literal
    [nameTemplateFuncMap] names, either as an entry or in a commented-out
    line. *)

Inductive strings_func : Set :=
  | Compare | Contains | ContainsAny | ContainsRune | Count | EqualFold
  | Fields | FieldsFunc | HasPrefix | HasSuffix
  | Index | IndexAny | IndexByte | IndexFunc | IndexRune
  | Join | LastIndex | LastIndexAny | LastIndexByte | LastIndexFunc
  | Map | Repeat | Replace | ReplaceAll
  | Split | SplitAfter | SplitAfterN | SplitN
  | Title | ToLower | ToLowerSpecial | ToTitle | ToTitleSpecial
  | ToUpper | ToUpperSpecial | ToValidUTF8
  | Trim | TrimFunc | TrimLeft | TrimLeftFunc | TrimPrefix
  | TrimRight | TrimRightFunc | TrimSpace | TrimSuffix.

#[global] Instance strings_func_eq_dec : EqDecision strings_func.
Proof. solve_decision. Defined.

(** The entries of [nameTemplateFuncMap], in the order of the literal. *)
Definition nameTemplateFuncMap_entries : list (string * strings_func) :=
  [ ("compare", Compare); ("contains", Contains);
    ("containsAny", ContainsAny); ("containsRune", ContainsRune);
    ("count", Count); ("equalFold", EqualFold); ("fields", Fields);
    ("hasPrefix", HasPrefix); ("hasSuffix", HasSuffix);
    ("indexAny", IndexAny); ("indexByte", IndexByte);
    ("indexRune", IndexRune); ("join", Join);
    ("lastIndex", LastIndex); ("lastIndexAny", LastIndexAny);
    ("lastIndexByte", LastIndexByte);
    ("repeat", Repeat); ("replace", Replace); ("replaceAll", ReplaceAll);
    ("split", Split); ("splitAfter", SplitAfter);
    ("splitAfterN", SplitAfterN); ("splitN", SplitN);
    ("toLower", ToLower); ("toTitle", ToTitle); ("toUpper", ToUpper);
    ("toValidUTF8", ToValidUTF8); ("trim", Trim); ("trimLeft", TrimLeft);
    ("trimPrefix", TrimPrefix); ("trimRight", TrimRight);
    ("trimSpace", TrimSpace); ("trimSuffix", TrimSuffix) ].


(** [var nameTemplateFuncMap = template.FuncMap{...}]: a Go map from the
    name a template uses to the function it stands for. *)
Definition nameTemplateFuncMap : gmap string strings_func :=
  list_to_map nameTemplateFuncMap_entries.




(** ** Data *)

(** A non-nil pointer is an address of the store; a Go pointer that may be
    nil is an [option]. *)
Definition addr := positive.

(** [context.Context]; the manager only ever holds [context.Background()]. *)
Inductive Context : Set := context_Background.

(** [hcloud.ListOpts] and [hcloud.ServerListOpts], with the fields the
    manager sets (the others keep their zero value). *)
Record ListOpts := { PerPage : Z; LabelSelector : string }.
Record ServerListOpts := { ServerListOpts_ListOpts : ListOpts }.

(** [apiv1.Node], with the two fields the manager reads: [node.Name] and
    [node.Spec.ProviderID]. *)
Record Node := { Name : string; ProviderID : string }.

(** Modelled from the spec: the struct [hetznerNodeGroup] is declared
    outside this file; its fields are those of the literal in [newManager]
    and the spec's NodeGroupDescriptor (group-id, instance-type, region and
    the three integer sizes), the sizes being Go [int]s. [manager] points
    back to the owning manager. *)
Record hetznerNodeGroup := {
  id : string;
  manager : option addr;
  minSize : Z;
  maxSize : Z;
  targetSize : Z;
  region : string;
  instanceType : string;
}.

Definition set_targetSize (n : Z) (g : hetznerNodeGroup) : hetznerNodeGroup :=
  {| id := id g; manager := manager g; minSize := minSize g;
     maxSize := maxSize g; targetSize := n; region := region g;
     instanceType := instanceType g |}.

(** ** What the manager is linked against

    The Go standard library ([text/template], [encoding/base64]) and the
    hcloud client (the spec's Cloud Server Gateway) are not part of the
    file: they are parameters, and the manager is verified against every
    implementation of them. The signatures are those of the calls in the
    file. [Server_Get] resolves one server by id or name and returns Go's
    pair of a server pointer and an error: a nil server with a nil error is
    the Gateway's NotFound (the case [deleteByNode] tests with
    [server == nil]), a non-nil error a failure of the call.
    [Server_Delete] and [Server_AllWithOpts] return the error of the call
    (and the servers listed). Each call may read and change the remote
    [Cloud]. What the client does with a nil server is the client's: the
    file never passes one, [deleteByNode] returning before the call when
    the server is nil. *)
Class Externals := {
  (** an [error] value made outside this file, and its [Error()] text *)
  ext_error : Type;
  ext_error_Error : ext_error → string;
  (** [template.New(name).Funcs(funcs).Parse(text)] *)
  Template : Type;
  template_Parse :
    string → gmap string strings_func → string → option Template * option ext_error;
  (** [base64.StdEncoding.DecodeString] *)
  base64_DecodeString : string → string * option ext_error;
  (** [hcloud.NewClient(hcloud.WithToken(token))] *)
  Client : Type;
  hcloud_NewClient : string → Client;
  Server : Type;
  Cloud : Type;
  Server_Get :
    Client → Context → string → Cloud → (option Server * option ext_error) * Cloud;
  Server_Delete :
    Client → Context → option Server → Cloud → option ext_error * Cloud;
  Server_AllWithOpts :
    Client → Context → ServerListOpts → Cloud
    → (list (option Server) * option ext_error) * Cloud;
}.

(** The three constants the file uses and does not declare: the reserved id
    of the draining group, the scheme prefix of provider identifiers and
    the node-group label. They are parameters too. *)
Class Constants := {
  drainingNodePoolId : string;
  providerIDPrefix : string;
  nodeGroupLabel : string;
}.

Section Manager.

Context `{Ext : Externals} `{Cst : Constants}.

(** Go's [error] interface: a value built here by [errors.New] or
    [fmt.Errorf] (neither wraps: the verbs are [%s] and [%v]), or one
    handed over by a library. *)
Inductive error :=
  | errorString (msg : string)
  | external (e : ext_error).

Definition error_Error (e : error) : string :=
  match e with
  | errorString msg => msg
  | external e => ext_error_Error e
  end.

Definition errors_New (msg : string) : error := errorString msg.

(** [type hetznerManager struct]. The map [nodeGroups] holds pointers to
    the group objects of the store. [client] and [apiCallContext] are what
    [newManager], the one place that builds a manager, always sets: a
    client from [hcloud.NewClient] and [context.Background()]; a manager
    with a nil client is not among the states of the model. *)
Record hetznerManager := {
  client : Client;
  nodeGroups : gmap string addr;
  apiCallContext : Context;
  cloudInit : string;
  image : string;
  nameTemplate : option Template;
  sshKeys : list string;
}.

Definition set_nodeGroups (ngs : gmap string addr) (m : hetznerManager)
  : hetznerManager :=
  {| client := client m; nodeGroups := ngs;
     apiCallContext := apiCallContext m; cloudInit := cloudInit m;
     image := image m; nameTemplate := nameTemplate m; sshKeys := sshKeys m |}.

(** A call on the hcloud client, as recorded in the state. *)
Inductive ApiCall :=
  | CallServerGet (idOrName : string)
  | CallServerDelete (server : option Server)
  | CallServerAllWithOpts (opts : ServerListOpts).

(** The state of the process and of the world around it: the environment
    variables, the managers and the node groups allocated so far, the remote
    cloud, and the calls made on the client (oldest first). *)
Record State := {
  environ : gmap string string;
  managers : gmap addr hetznerManager;
  groups : gmap addr hetznerNodeGroup;
  cloud : Cloud;
  calls : list ApiCall;
}.

Definition set_managers (ms : gmap addr hetznerManager) (σ : State) : State :=
  {| environ := environ σ; managers := ms; groups := groups σ;
     cloud := cloud σ; calls := calls σ |}.

Definition set_groups (gs : gmap addr hetznerNodeGroup) (σ : State) : State :=
  {| environ := environ σ; managers := managers σ; groups := gs;
     cloud := cloud σ; calls := calls σ |}.

Definition after_call (c : ApiCall) (w : Cloud) (σ : State) : State :=
  {| environ := environ σ; managers := managers σ; groups := groups σ;
     cloud := w; calls := calls σ ++ [c] |}.

(** ** The monad: state, and panics *)

Inductive outcome (A : Type) :=
  | Returns (a : A) (σ : State)
  | Panics.
Arguments Returns {A} a σ.
Arguments Panics {A}.

Definition M (A : Type) : Type := State → outcome A.

Definition ret {A} (a : A) : M A := λ σ, Returns a σ.

Definition bind {A B} (c : M A) (k : A → M B) : M B :=
  λ σ, match c σ with
       | Returns a σ' => k a σ'
       | Panics => Panics
       end.

Definition panic {A} : M A := λ _, Panics.

Notation "x <- c ;; k" := (bind c (λ x, k))
  (at level 100, c at next level, right associativity).
Notation "c ;;; k" := (bind c (λ _, k))
  (at level 100, right associativity).

(** [os.Getenv]: the empty string for a variable that is not set. *)
Definition getenv (σ : State) (key : string) : string :=
  default "" (environ σ !! key).

Definition os_Getenv (key : string) : M string :=
  λ σ, Returns (getenv σ key) σ.

(** Reading through a pointer; nil panics. *)
Definition load_manager (m : option addr) : M hetznerManager :=
  λ σ, match m ≫= (managers σ !!.) with
       | Some mgr => Returns mgr σ
       | None => Panics
       end.

Definition load_group (g : option addr) : M hetznerNodeGroup :=
  λ σ, match g ≫= (groups σ !!.) with
       | Some grp => Returns grp σ
       | None => Panics
       end.

Definition store_manager (m : addr) (mgr : hetznerManager) : M unit :=
  λ σ, Returns tt (set_managers (<[m := mgr]> (managers σ)) σ).

Definition store_group (g : addr) (grp : hetznerNodeGroup) : M unit :=
  λ σ, Returns tt (set_groups (<[g := grp]> (groups σ)) σ).

(** [&hetznerManager{...}] and [&hetznerNodeGroup{...}]: a new object at an
    address not in use. *)
Definition new_manager (mgr : hetznerManager) : M addr :=
  λ σ, let m := fresh (dom (managers σ)) in
       Returns m (set_managers (<[m := mgr]> (managers σ)) σ).

Definition new_group (grp : hetznerNodeGroup) : M addr :=
  λ σ, let g := fresh (dom (groups σ)) in
       Returns g (set_groups (<[g := grp]> (groups σ)) σ).

(** The three calls on [m.client.Server]; each is recorded. *)
Definition client_Server_Get (c : Client) (ctx : Context) (idOrName : string)
  : M (option Server * option ext_error) :=
  λ σ, let '(r, w) := Server_Get c ctx idOrName (cloud σ) in
       Returns r (after_call (CallServerGet idOrName) w σ).

Definition client_Server_Delete (c : Client) (ctx : Context) (server : option Server)
  : M (option ext_error) :=
  λ σ, let '(r, w) := Server_Delete c ctx server (cloud σ) in
       Returns r (after_call (CallServerDelete server) w σ).

Definition client_Server_AllWithOpts (c : Client) (ctx : Context) (opts : ServerListOpts)
  : M (list (option Server) * option ext_error) :=
  λ σ, let '(r, w) := Server_AllWithOpts c ctx opts (cloud σ) in
       Returns r (after_call (CallServerAllWithOpts opts) w σ).

(** Reading [node.Name] or [node.Spec]: a nil node panics. *)
Definition load_node (node : option Node) : M Node :=
  match node with
  | Some n => ret n
  | None => panic
  end.

(** ** The manager *)

(** [newManager], returning a manager pointer and an error *)
Definition newManager : M (option addr * option error) :=
  token <- os_Getenv "HCLOUD_TOKEN" ;;
  if decide (token = "")
  then ret (None, Some (errors_New "`HCLOUD_TOKEN` is not specified"))
  else
  cloudInitBase64 <- os_Getenv "HCLOUD_CLOUD_INIT" ;;
  if decide (cloudInitBase64 = "")
  then ret (None, Some (errors_New "`HCLOUD_CLOUD_INIT` is not specified"))
  else
  image <- os_Getenv "HCLOUD_IMAGE" ;;
  let image := if decide (image = "") then "ubuntu-20.04" else image in
  nameTemplateStr <- os_Getenv "HCLOUD_NAME_TEMPLATE" ;;
  let '(nameTemplate, err) :=
    if decide (nameTemplateStr = "") then (None, None)
    else template_Parse "nameTemplate" nameTemplateFuncMap nameTemplateStr in
  match err with
  | Some err =>
      ret (None, Some (errorString
             ("failed to parse name template: " +:+ ext_error_Error err)))
  | None =>
  sshKeyEnv <- os_Getenv "HCLOUD_SSH_KEY" ;;
  let sshKeys := strings.Split sshKeyEnv "," in
  let client := hcloud_NewClient token in
  let ctx := context_Background in
  let '(cloudInit, err) := base64_DecodeString cloudInitBase64 in
  match err with
  | Some err =>
      ret (None, Some (errorString
             ("failed to parse cloud init error: " +:+ ext_error_Error err)))
  | None =>
  m <- new_manager {| client := client; nodeGroups := ∅;
                      cloudInit := cloudInit; nameTemplate := nameTemplate;
                      image := image; sshKeys := sshKeys;
                      apiCallContext := ctx |} ;;
  g <- new_group {| manager := Some m; instanceType := "cx11";
                    region := "fsn1"; targetSize := 0; maxSize := 0;
                    minSize := 0; id := drainingNodePoolId |} ;;
  mgr <- load_manager (Some m) ;;
  store_manager m
    (set_nodeGroups (<[drainingNodePoolId := g]> (nodeGroups mgr)) mgr) ;;;
  ret (Some m, None)
  end
  end.

(** [func (m *hetznerManager) Refresh() error] *)
Definition Refresh (m : option addr) : M (option error) := ret None.

(** [func (m *hetznerManager) allServers(nodeGroup string)] *)
Definition allServers (m : option addr) (nodeGroup : string)
  : M (list (option Server) * option error) :=
  let listOptions :=
    {| PerPage := 50;
       LabelSelector := nodeGroupLabel +:+ "=" +:+ nodeGroup |} in
  let requestOptions := {| ServerListOpts_ListOpts := listOptions |} in
  mgr <- load_manager m ;;
  r <- client_Server_AllWithOpts (client mgr) (apiCallContext mgr) requestOptions ;;
  match r.2 with
  | Some err =>
      ret ([], Some (errorString
             ("failed to get servers for hcloud: " +:+ ext_error_Error err)))
  | None => ret (r.1, None)
  end.

(** The local [nodeIdOrName] of [serverForNode]: what the server is
    looked up by. *)
Definition nodeIdOrName (n : Node) : string :=
  if decide (ProviderID n ≠ "")
  then strings.TrimPrefix (ProviderID n) providerIDPrefix
  else Name n.

(** [func (m *hetznerManager) serverForNode(node *apiv1.Node)] *)
Definition serverForNode (m : option addr) (node : option Node)
  : M (option Server * option error) :=
  n <- load_node node ;;
  let nodeIdOrName := nodeIdOrName n in
  mgr <- load_manager m ;;
  r <- client_Server_Get (client mgr) (apiCallContext mgr) nodeIdOrName ;;
  match r.2 with
  | Some err =>
      ret (None, Some (errorString
             ("failed to get servers for node " +:+ Name n +:+ " error: "
              +:+ ext_error_Error err)))
  | None => ret (r.1, None)
  end.

(** [func (m *hetznerManager) deleteServer(server *hcloud.Server) error] *)
Definition deleteServer (m : option addr) (server : option Server)
  : M (option error) :=
  mgr <- load_manager m ;;
  err <- client_Server_Delete (client mgr) (apiCallContext mgr) server ;;
  ret (external <$> err).

(** [func (m *hetznerManager) deleteByNode(node *apiv1.Node) error] *)
Definition deleteByNode (m : option addr) (node : option Node)
  : M (option error) :=
  r <- serverForNode m node ;;
  match r.2 with
  | Some err =>
      n <- load_node node ;;
      ret (Some (errorString
             ("failed to delete node " +:+ Name n +:+ " error: "
              +:+ error_Error err)))
  | None =>
      match r.1 with
      | None =>
          n <- load_node node ;;
          ret (Some (errorString
                 ("failed to delete node " +:+ Name n +:+ " server not found")))
      | Some _ => deleteServer m r.1
      end
  end.

(** [func (m *hetznerManager) addNodeToDrainingPool(node *apiv1.Node)]:
    [m.nodeGroups[drainingNodePoolId].targetSize += 1], then the map is
    indexed again for the result. Indexing a map at a missing key gives
    nil. *)
Definition addNodeToDrainingPool (m : option addr) (node : option Node)
  : M (option addr * option error) :=
  mgr <- load_manager m ;;
  let g := nodeGroups mgr !! drainingNodePoolId in
  grp <- load_group g ;;
  match g with
  | Some a => store_group a (set_targetSize (int_add (targetSize grp) 1) grp)
  | None => panic
  end ;;;
  mgr <- load_manager m ;;
  ret (nodeGroups mgr !! drainingNodePoolId, None).

(** [addNodeToDrainingPool] called once per node of [nodes], one call after
    the other; the results of the calls in order. *)
Fixpoint drainAll (m : option addr) (nodes : list (option Node))
  : M (list (option addr * option error)) :=
  match nodes with
  | [] => ret []
  | node :: rest =>
      r <- addNodeToDrainingPool m node ;;
      rs <- drainAll m rest ;;
      ret (r :: rs)
  end.

(** The operations of the file, with their arguments. *)
Inductive operation :=
  | OpNewManager
  | OpRefresh (m : option addr)
  | OpAllServers (m : option addr) (nodeGroup : string)
  | OpDeleteByNode (m : option addr) (node : option Node)
  | OpDeleteServer (m : option addr) (server : option Server)
  | OpAddNodeToDrainingPool (m : option addr) (node : option Node)
  | OpServerForNode (m : option addr) (node : option Node).

(** Running an operation for its effect on the state. *)
Definition perform (op : operation) : M unit :=
  match op with
  | OpNewManager => newManager ;;; ret tt
  | OpRefresh m => Refresh m ;;; ret tt
  | OpAllServers m nodeGroup => allServers m nodeGroup ;;; ret tt
  | OpDeleteByNode m node => deleteByNode m node ;;; ret tt
  | OpDeleteServer m server => deleteServer m server ;;; ret tt
  | OpAddNodeToDrainingPool m node => addNodeToDrainingPool m node ;;; ret tt
  | OpServerForNode m node => serverForNode m node ;;; ret tt
  end.

(** ** Observations *)

(** What a run returned, and the state it left; nothing after a panic. *)
Definition returned {A} (o : outcome A) : option A :=
  match o with
  | Returns a _ => Some a
  | Panics => None
  end.

Definition final {A} (o : outcome A) : option State :=
  match o with
  | Returns _ σ => Some σ
  | Panics => None
  end.

(** The manager at [m] holds, under [drainingNodePoolId], the pointer [g],
    and the object at [g] is [grp]. *)
(** The store of [σ'] is that of [σ]: the same managers, the same
    groups. *)
Definition store_kept (σ σ' : State) : Prop :=
  managers σ' = managers σ ∧ groups σ' = groups σ.

Definition draining_ptr (σ : State) (m : addr) : option addr :=
  mgr ← managers σ !! m; nodeGroups mgr !! drainingNodePoolId.

Definition draining_at (σ : State) (m g : addr) (grp : hetznerNodeGroup) : Prop :=
  draining_ptr σ m = Some g ∧ groups σ !! g = Some grp.

(** The draining group of the manager at [m], read through its map. *)
Definition draining_group (σ : State) (m : addr) : option hetznerNodeGroup :=
  g ← draining_ptr σ m; groups σ !! g.

End Manager.

Arguments Returns {_ _} a σ.
Arguments Panics {_ _}.
Arguments returned {_ _} o.
Arguments final {_ _} o.

(** ** Go's [text/template], at the level of tokens

    The manager hands the name template to [text/template]. What follows is
    the part of its lexer (package [text/template/parse]) that decides which
    words of a source are function names: the words the parser looks up
    among the functions it was given and its predefined ones, failing with
    [function ... not defined] for a word it does not find. Sources are
    read as bytes, so the model speaks of ASCII sources; numbers and the
    nesting of parentheses and of [if]/[end] are not checked. *)

Module template.

(** The functions [text/template] predefines (funcs.go). *)
Definition builtins : list string :=
  ["and"; "call"; "html"; "index"; "slice"; "js"; "len"; "not"; "or";
   "print"; "printf"; "println"; "urlquery";
   "eq"; "ge"; "gt"; "le"; "lt"; "ne"].

(** The words the lexer does not hand over as identifiers: the keywords
    and the two boolean constants. *)
Definition keywords : list string :=
  ["block"; "break"; "continue"; "define"; "else"; "end"; "if"; "range";
   "nil"; "template"; "with"; "true"; "false"].

Definition code (c : ascii) : N := N_of_ascii c.

Definition is_space (c : ascii) : bool :=
  ((code c =? 32) || (code c =? 9) || (code c =? 13) || (code c =? 10))%N.

Definition is_newline (c : ascii) : bool := (code c =? 10)%N.

Definition is_digit (c : ascii) : bool :=
  ((48 <=? code c) && (code c <=? 57))%N.

Definition is_letter (c : ascii) : bool :=
  (((65 <=? code c) && (code c <=? 90))
   || ((97 <=? code c) && (code c <=? 122)) || (code c =? 95))%N.

Definition is_alnum (c : ascii) : bool := is_letter c || is_digit c.

Definition is_printable (c : ascii) : bool :=
  ((32 <=? code c) && (code c <=? 126))%N.

(** The length of the right delimiter at the head of [s], with its trim
    marker (a space and a dash) when there is one. *)
Definition right_delim (s : string) : option nat :=
  if String.prefix "}}" s then Some 2%nat
  else match s with
       | String c t => if is_space c && String.prefix "-}}" t then Some 4%nat else None
       | EmptyString => None
       end.

(** What may follow an identifier, a field or a variable. *)
Definition at_terminator (c : ascii) (rest : string) : bool :=
  is_space c
  || bool_decide (c ∈ ["."; ","; "|"; ":"; ")"; "("]%char)
  || String.prefix "}}" (String c rest).

Inductive mode :=
  | Text                      (* outside the actions *)
  | Open                      (* just behind the left delimiter *)
  | Action                    (* inside an action, between two tokens *)
  | Ident (acc : list ascii)  (* in an identifier, read so far (reversed) *)
  | Word                      (* in the name of a field or a variable *)
  | Number
  | Quote (escaped : bool)
  | Raw
  | Char (escaped : bool)
  | Comment.

Inductive failure :=
  | UnclosedAction
  | UnclosedComment
  | CommentNotClosed
  | UnterminatedQuote
  | UnterminatedRaw
  | UnterminatedChar
  | BadCharacter (c : ascii)
  | UnrecognizedCharacter (c : ascii).

(** One byte [c] (followed by [rest]) in mode [md]: the identifier that
    ends here, if one does, then the mode to go on in and the number of
    bytes to pass over, or the failure. *)
Record move := {
  emitted : option string;
  next : mode + failure;
  passing : nat;
}.

Definition go_on (md : mode) : move :=
  {| emitted := None; next := inl md; passing := O |}.
Definition pass (n : nat) (md : mode) : move :=
  {| emitted := None; next := inl md; passing := n |}.
Definition fail (e : failure) : move :=
  {| emitted := None; next := inr e; passing := O |}.
Definition emit (word : string) (mv : move) : move :=
  {| emitted := if bool_decide (word ∈ keywords) then None else Some word;
     next := next mv; passing := passing mv |}.

(** Between two tokens of an action ([lexInsideAction]). *)
Definition in_action (c : ascii) (rest : string) : move :=
  match right_delim (String c rest) with
  | Some n => pass (n - 1) Text
  | None =>
      if is_space c then go_on Action
      else if Ascii.eqb c "034" then go_on (Quote false)
      else if Ascii.eqb c "`" then go_on Raw
      else if Ascii.eqb c "'" then go_on (Char false)
      else if Ascii.eqb c "$" then go_on Word
      else if Ascii.eqb c "." then
        match rest with
        | String d _ => if is_digit d then go_on Number else go_on Word
        | EmptyString => go_on Word
        end
      else if Ascii.eqb c "+" || Ascii.eqb c "-" || is_digit c then go_on Number
      else if is_letter c then go_on (Ident [c])
      else if is_printable c then go_on Action
      else fail (UnrecognizedCharacter c)
  end.

Definition step (md : mode) (c : ascii) (rest : string) : move :=
  match md with
  | Text =>
      if String.prefix "{{" (String c rest) then
        match rest with
        | String _ (String d (String e _)) =>
            if Ascii.eqb d "-" && is_space e then pass 3 Open else pass 1 Open
        | _ => pass 1 Open
        end
      else go_on Text
  | Open =>
      if String.prefix "/*" (String c rest) then pass 1 Comment
      else in_action c rest
  | Action => in_action c rest
  | Ident acc =>
      if is_alnum c then go_on (Ident (c :: acc))
      else if at_terminator c rest
      then emit (string_of_list_ascii (rev acc)) (in_action c rest)
      else fail (BadCharacter c)
  | Word =>
      if is_alnum c then go_on Word
      else if at_terminator c rest then in_action c rest
      else fail (BadCharacter c)
  | Number =>
      if is_alnum c || Ascii.eqb c "." then go_on Number
      else in_action c rest
  | Quote escaped =>
      if is_newline c then fail UnterminatedQuote
      else if escaped then go_on (Quote false)
      else if Ascii.eqb c "\" then go_on (Quote true)
      else if Ascii.eqb c "034" then go_on Action
      else go_on (Quote false)
  | Raw => if Ascii.eqb c "`" then go_on Action else go_on Raw
  | Char escaped =>
      if is_newline c then fail UnterminatedChar
      else if escaped then go_on (Char false)
      else if Ascii.eqb c "\" then go_on (Char true)
      else if Ascii.eqb c "'" then go_on Action
      else go_on (Char false)
  | Comment =>
      if String.prefix "*/" (String c rest) then
        match rest with
        | String _ after =>
            match right_delim after with
            | Some n => pass (S n) Text
            | None => fail CommentNotClosed
            end
        | EmptyString => go_on Comment
        end
      else go_on Comment
  end.

(** The end of the input in mode [md]. *)
Definition finish (md : mode) : option string * option failure :=
  match md with
  | Text => (None, None)
  | Ident acc =>
      (emitted (emit (string_of_list_ascii (rev acc)) (go_on Action)),
       Some UnclosedAction)
  | Open | Action | Word | Number => (None, Some UnclosedAction)
  | Quote _ => (None, Some UnterminatedQuote)
  | Raw => (None, Some UnterminatedRaw)
  | Char _ => (None, Some UnterminatedChar)
  | Comment => (None, Some UnclosedComment)
  end.

Definition word_at (line : nat) (w : option string) : list (string * nat) :=
  match w with
  | Some f => [(f, line)]
  | None => []
  end.

(** The identifiers of a source with their lines, in order, up to the
    first lexical failure, and that failure with its line. *)
Fixpoint lex (md : mode) (skip line : nat) (s : string)
  : list (string * nat) * option (failure * nat) :=
  match s with
  | EmptyString =>
      let '(w, e) := finish md in (word_at line w, (λ e, (e, line)) <$> e)
  | String c s' =>
      let line' := if is_newline c then S line else line in
      match skip with
      | S k => lex md k line' s'
      | O =>
          let mv := step md c s' in
          match next mv with
          | inr e => (word_at line (emitted mv), Some (e, line))
          | inl md' =>
              let '(ws, e) := lex md' (passing mv) line' s' in
              (word_at line (emitted mv) ++ ws, e)
          end
      end
  end.

(** The function names of a source: the words the parser looks up. *)
Definition identifiers (text : string) : list string :=
  (lex Text O 1 text).1.*1.

End template.

(** ** A test double for the libraries and the cloud

    Small executable stand-ins for what the manager is linked against, to
    run it on concrete inputs. The theorems below hold for every
    implementation; only the examples use this one. *)

Module Double.

(** *** [encoding/base64], standard alphabet with padding *)

Definition sextet (c : ascii) : option N :=
  let n := N_of_ascii c in
  if (65 <=? n)%N && (n <=? 90)%N then Some (n - 65)%N
  else if (97 <=? n)%N && (n <=? 122)%N then Some (n - 71)%N
  else if (48 <=? n)%N && (n <=? 57)%N then Some (n + 4)%N
  else if (n =? 43)%N then Some 62%N
  else if (n =? 47)%N then Some 63%N
  else None.

Definition is_newline (c : ascii) : bool :=
  let n := N_of_ascii c in ((n =? 10) || (n =? 13))%N.

Definition is_pad (c : ascii) : bool := (N_of_ascii c =? 61)%N.

Definition byte_of (n : N) : ascii := ascii_of_N (n mod 256).

(** The bytes of a quantum of [k] sextets [a b c d] (the missing ones
    being 0): the first [k - 1] bytes of the 24 bits. *)
Definition quantum (k : nat) (a b c d : N) : list ascii :=
  let val := (a * 262144 + b * 4096 + c * 64 + d)%N in
  take (k - 1)%nat
    [byte_of (val / 65536); byte_of (val / 256); byte_of val].

(** Decoding the input with its line breaks removed, four characters at a
    time; padding is only accepted as the end of the last quantum. *)
Fixpoint decode_quanta (l : list ascii) : list ascii * bool :=
  match l with
  | [] => ([], true)
  | [a; b; p; q] =>
      match sextet a, sextet b, sextet p, sextet q with
      | Some a, Some b, Some c, Some d => (quantum 4 a b c d, true)
      | Some a, Some b, Some c, None => (quantum 3 a b c 0, is_pad q)
      | Some a, Some b, None, None =>
          (quantum 2 a b 0 0, is_pad p && is_pad q)
      | _, _, _, _ => ([], false)
      end
  | a :: b :: c :: d :: rest =>
      match sextet a, sextet b, sextet c, sextet d with
      | Some a, Some b, Some c, Some d =>
          let '(out, ok) := decode_quanta rest in
          (quantum 4 a b c d ++ out, ok)
      | _, _, _, _ => ([], false)
      end
  | _ => ([], false)
  end.

Definition DecodeString (s : string) : string * option string :=
  let l := filter (λ c, is_newline c = false) (list_ascii_of_string s) in
  let '(out, ok) := decode_quanta l in
  (string_of_list_ascii (if ok then out else []),
   if ok then None else Some "illegal base64 data").

(** *** [text/template]: the lookup of the function names, and the
    failures of the lexer; the message is the one of the first function that
    is not defined, or else the lexer's *)

Definition dquote : string := String "034" "".

Definition hex_digit (n : N) : ascii :=
  ascii_of_N (if (n <? 10)%N then 48 + n else 55 + n).

(** Go's [%#U] for a byte. *)
Definition unicode_point (c : ascii) : string :=
  let n := N_of_ascii c in
  "U+00" +:+ String (hex_digit (n / 16)) (String (hex_digit (n mod 16)) "")
  +:+ (if template.is_printable c then " '" +:+ String c "'" else "").

Definition describe (e : template.failure) : string :=
  match e with
  | template.UnclosedAction => "unclosed action"
  | template.UnclosedComment => "unclosed comment"
  | template.CommentNotClosed => "comment ends before closing delimiter"
  | template.UnterminatedQuote => "unterminated quoted string"
  | template.UnterminatedRaw => "unterminated raw quoted string"
  | template.UnterminatedChar => "unterminated character constant"
  | template.BadCharacter c => "bad character " +:+ unicode_point c
  | template.UnrecognizedCharacter c =>
      "unrecognized character in action: " +:+ unicode_point c
  end.

Definition defined (funcs : gmap string strings_func) (f : string) : bool :=
  bool_decide (is_Some (funcs !! f)) || bool_decide (f ∈ template.builtins).

(** The first word of [ws] that is not a function. *)
Fixpoint first_undefined (funcs : gmap string strings_func)
    (ws : list (string * nat)) : option (string * nat) :=
  match ws with
  | [] => None
  | (f, line) :: rest =>
      if defined funcs f then first_undefined funcs rest else Some (f, line)
  end.

Definition message (name : string) (line : nat) (what : string) : string :=
  "template: " +:+ name +:+ ":" +:+ pretty line +:+ ": " +:+ what.

Definition Parse (name : string) (funcs : gmap string strings_func)
    (text : string) : option string * option string :=
  let '(ws, e) := template.lex template.Text O 1 text in
  match first_undefined funcs ws with
  | Some (f, line) =>
      (None, Some (message name line
                     ("function " +:+ dquote +:+ f +:+ dquote +:+ " not defined")))
  | None =>
      match e with
      | Some (e, line) => (None, Some (message name line (describe e)))
      | None => (Some text, None)
      end
  end.

(** *** The cloud: the servers that exist, whether the API answers, and
    whether it lets servers be deleted *)

Record server := { server_id : string; server_name : string; server_group : string }.

#[global] Instance server_eq_dec : EqDecision server.
Proof. solve_decision. Defined.

Record cloud := { reachable : bool; deletable : bool; servers : list server }.

Definition names (idOrName : string) (s : server) : bool :=
  bool_decide (server_id s = idOrName) || bool_decide (server_name s = idOrName).

Definition Get (c : string) (ctx : Context) (idOrName : string) (w : cloud)
  : (option server * option string) * cloud :=
  if reachable w then (head (filter (names idOrName) (servers w)), None, w)
  else (None, Some "connection refused", w).

Definition Delete (c : string) (ctx : Context) (s : option server) (w : cloud)
  : option string * cloud :=
  if reachable w then
    if deletable w then
      match s with
      | Some s =>
          if bool_decide (s ∈ servers w)
          then (None, {| reachable := true; deletable := true;
                         servers := filter (λ s', s' ≠ s) (servers w) |})
          else (Some "server not found", w)
      | None => (Some "server not found", w)
      end
    else (Some "server is locked", w)
  else (Some "connection refused", w).

Definition AllWithOpts (label : string) (c : string) (ctx : Context)
    (opts : ServerListOpts) (w : cloud)
  : (list (option server) * option string) * cloud :=
  if reachable w then
    (Some <$> filter
       (λ s, LabelSelector (ServerListOpts_ListOpts opts)
             = label +:+ "=" +:+ server_group s) (servers w), None, w)
  else ([], Some "connection refused", w).

End Double.

#[local] Instance double_externals : Externals := {|
  ext_error := string;
  ext_error_Error := λ e, e;
  Template := string;
  template_Parse := Double.Parse;
  base64_DecodeString := Double.DecodeString;
  Client := string;
  hcloud_NewClient := λ token, token;
  Server := Double.server;
  Cloud := Double.cloud;
  Server_Get := Double.Get;
  Server_Delete := Double.Delete;
  Server_AllWithOpts := Double.AllWithOpts "hcloud/node-group";
|}.

#[local] Instance double_constants : Constants := {|
  drainingNodePoolId := "draining-node-pool";
  providerIDPrefix := "hcloud://";
  nodeGroupLabel := "hcloud/node-group";
|}.

(** ** Scenarios *)

Module Scenario.

Definition worker1 : Double.server :=
  {| Double.server_id := "42"; Double.server_name := "worker-1";
     Double.server_group := "pool1" |}.

Definition one_server : Double.cloud :=
  {| Double.reachable := true; Double.deletable := true;
     Double.servers := [worker1] |}.

Definition offline : Double.cloud :=
  {| Double.reachable := false; Double.deletable := true;
     Double.servers := [worker1] |}.

Definition locked : Double.cloud :=
  {| Double.reachable := true; Double.deletable := false;
     Double.servers := [worker1] |}.

(** A process that has allocated nothing yet. *)
Definition boot (env : list (string * string)) (w : Double.cloud) : State :=
  {| environ := list_to_map env; managers := ∅; groups := ∅;
     cloud := w; calls := [] |}.

(** Scenario A of the spec: token, cloud-init, nothing else. *)
Definition envA : list (string * string) :=
  [("HCLOUD_TOKEN", "t1"); ("HCLOUD_CLOUD_INIT", "aGVsbG8=")].

Definition σA : State := boot envA one_server.

(** The state a process is in after [newManager] has returned: the state
    itself when the constructor panics. *)
Definition started (σ : State) : State :=
  match newManager σ with
  | Returns _ σ' => σ'
  | Panics => σ
  end.

(** The state a run leaves behind (the state it started in when it
    panics). *)
Definition state_after {A} (c : M A) (σ : State) : State :=
  default σ (final (c σ)).

(** The process of scenario A once its manager is built: the manager is
    at address 1 and its draining group at address 1 of the groups. *)
Definition σ1 : State := started σA.

(** The manager that scenario A builds, and its draining group. *)
Definition manager_A : hetznerManager :=
  {| client := "t1";
     nodeGroups := {[ "draining-node-pool" := 1%positive ]};
     apiCallContext := context_Background;
     cloudInit := "hello"; image := "ubuntu-20.04";
     nameTemplate := None; sshKeys := [""] |}.

Definition draining_A : hetznerNodeGroup :=
  {| id := "draining-node-pool"; manager := Some 1%positive;
     minSize := 0; maxSize := 0; targetSize := 0;
     region := "fsn1"; instanceType := "cx11" |}.

(** The same process when the draining counter has reached the largest
    [int]. *)
Definition σ_full : State :=
  set_groups (alter (set_targetSize max_int) 1%positive (groups σ1)) σ1.

(** The same process when the API does not answer. *)
Definition σ_offline : State :=
  {| environ := environ σ1; managers := managers σ1; groups := groups σ1;
     cloud := offline; calls := [] |}.

(** The same process when the API refuses to delete. *)
Definition σ_locked : State :=
  {| environ := environ σ1; managers := managers σ1; groups := groups σ1;
     cloud := locked; calls := [] |}.

(** A node renamed in the cluster, backed by server 42. *)
Definition renamed : Node := {| Name := "node-a"; ProviderID := "hcloud://42" |}.

(** A node without provider identifier. *)
Definition unlabelled : Node := {| Name := "worker-1"; ProviderID := "" |}.

(** A node whose server is gone. *)
Definition ghost : Node := {| Name := "worker-9"; ProviderID := "hcloud://99" |}.

(** Environments that [newManager] rejects, and one with a template
    naming [indexFunc]. *)
Definition env_no_token : list (string * string) :=
  [("HCLOUD_CLOUD_INIT", "aGVsbG8=")].
Definition env_no_cloud_init : list (string * string) :=
  [("HCLOUD_TOKEN", "t1")].
Definition env_bad_base64 : list (string * string) :=
  [("HCLOUD_TOKEN", "t1"); ("HCLOUD_CLOUD_INIT", "aGVsbG8")].
Definition env_bad_template : list (string * string) :=
  [("HCLOUD_TOKEN", "t1"); ("HCLOUD_CLOUD_INIT", "aGVsbG8=");
   ("HCLOUD_NAME_TEMPLATE", "{{indexFunc .GroupId}}-{{.Seq}}")].

(** Environments with an image, a name template and two SSH keys. *)
Definition env_full : list (string * string) :=
  [("HCLOUD_TOKEN", "t1"); ("HCLOUD_CLOUD_INIT", "aGVsbG8=");
   ("HCLOUD_IMAGE", "debian-11");
   ("HCLOUD_NAME_TEMPLATE", "{{toUpper .GroupId}}-{{.Seq}}");
   ("HCLOUD_SSH_KEY", "alice, bob")].

Definition σ_full_env : State := boot env_full one_server.



Definition σ_no_token : State := boot env_no_token one_server.
Definition σ_no_cloud_init : State := boot env_no_cloud_init one_server.
Definition σ_bad_base64 : State := boot env_bad_base64 one_server.
Definition σ_bad_template : State := boot env_bad_template one_server.

(** Scenario B of the spec: three calls, with three different node
    arguments (the last one nil). *)
Definition three_nodes : list (option Node) := [Some ghost; Some renamed; None].

Definition drain_renamed : operation :=
  OpAddNodeToDrainingPool (Some 1%positive) (Some renamed).

Definition delete_renamed : operation :=
  OpDeleteByNode (Some 1%positive) (Some renamed).

(** A day in the life of the manager at address 1: a lookup, a drain, a
    listing, a second manager, a drain on the first again, a delete. *)
Definition busy : list operation :=
  [OpServerForNode (Some 1%positive) (Some ghost);
   drain_renamed;
   OpAllServers (Some 1%positive) "pool1";
   OpNewManager;
   OpAddNodeToDrainingPool (Some 1%positive) None;
   OpRefresh (Some 1%positive);
   delete_renamed].

End Scenario.

(** ** Sequences of operations *)

Section Sequences.

Context `{Ext : Externals} `{Cst : Constants}.

(** The operations of [ops] one after the other, for their effect. *)
Fixpoint perform_all (ops : list operation) : M unit :=
  match ops with
  | [] => ret tt
  | op :: rest => bind (perform op) (λ _, perform_all rest)
  end.

(** Whether the operation is a call of [addNodeToDrainingPool]; and the
    number of such calls in [ops]. *)
Definition is_drain (op : operation) : bool :=
  match op with
  | OpAddNodeToDrainingPool _ _ => true
  | _ => false
  end.

Definition drains (ops : list operation) : nat :=
  length (filter (λ op, is_drain op = true) ops).

(** The manager an operation is called on (none for [newManager]). *)
Definition receiver (op : operation) : option addr :=
  match op with
  | OpNewManager => None
  | OpRefresh m | OpAllServers m _ | OpDeleteByNode m _
  | OpDeleteServer m _ | OpAddNodeToDrainingPool m _
  | OpServerForNode m _ => m
  end.

(** The calls on the client that an operation is allowed: none for
    [newManager], [Refresh] and [addNodeToDrainingPool]; the listing for
    [allServers]; the lookup for [serverForNode]; the delete for
    [deleteServer]; for [deleteByNode] the lookup, then possibly the delete
    of one server. *)
Definition footprint (op : operation) (l : list ApiCall) : Prop :=
  match op with
  | OpNewManager | OpRefresh _ | OpAddNodeToDrainingPool _ _ => l = []
  | OpAllServers _ nodeGroup =>
      l = [CallServerAllWithOpts
             {| ServerListOpts_ListOpts :=
                  {| PerPage := 50;
                     LabelSelector := nodeGroupLabel +:+ "=" +:+ nodeGroup |} |}]
  | OpServerForNode _ node =>
      ∃ n, node = Some n ∧ l = [CallServerGet (nodeIdOrName n)]
  | OpDeleteServer _ server => l = [CallServerDelete server]
  | OpDeleteByNode _ node =>
      ∃ n, node = Some n
           ∧ (l = [CallServerGet (nodeIdOrName n)]
              ∨ ∃ s, l = [CallServerGet (nodeIdOrName n);
                          CallServerDelete (Some s)])
  end.


(** A store in order: every group a manager holds under a key is
    allocated, carries that key as its [id] and points back to that manager;
    and every manager holds a draining group, with bounds 0 and a counter
    that is an [int]. *)
Definition well_formed (σ : State) : Prop :=
  ∀ m mgr, managers σ !! m = Some mgr →
    (∀ k g, nodeGroups mgr !! k = Some g →
       ∃ grp, groups σ !! g = Some grp ∧ id grp = k ∧ manager grp = Some m)
    ∧ (∃ g grp, draining_at σ m g grp
                ∧ minSize grp = 0 ∧ maxSize grp = 0 ∧ is_int (targetSize grp)).

End Sequences.

(** * Properties *)

(** ** The library functions on small inputs *)

Example Split_abc : strings.Split "a,b,c" "," = ["a"; "b"; "c"].
Proof. reflexivity. Qed.

Example Split_trailing : strings.Split "a,,b," "," = ["a"; ""; "b"; ""].
Proof. reflexivity. Qed.

Example Split_multi : strings.Split "a--b-c" "--" = ["a"; "b-c"].
Proof. reflexivity. Qed.

Example Split_empty : strings.Split "" "," = [""].
Proof. reflexivity. Qed.

Example TrimPrefix_hcloud : strings.TrimPrefix "hcloud://42" "hcloud://" = "42".
Proof. reflexivity. Qed.

Example TrimPrefix_other : strings.TrimPrefix "aws://42" "hcloud://" = "aws://42".
Proof. reflexivity. Qed.

Example int_add_small : int_add 41 1 = 42.
Proof. reflexivity. Qed.

Example int_add_overflow : int_add max_int 1 = min_int.
Proof. reflexivity. Qed.

Example catalog_toUpper : nameTemplateFuncMap !! "toUpper" = Some ToUpper.
Proof. vm_compute. reflexivity. Qed.

Example catalog_index : nameTemplateFuncMap !! "index" = None.
Proof. vm_compute. reflexivity. Qed.

Example DecodeString_hello : Double.DecodeString "aGVsbG8=" = ("hello", None).
Proof. reflexivity. Qed.

Example DecodeString_unpadded :
  Double.DecodeString "aGVsbG8" = ("", Some "illegal base64 data").
Proof. reflexivity. Qed.

Section Basics.

Context `{Ext : Externals} `{Cst : Constants}.

(** ** Arithmetic of [int] *)

Lemma int_wrap_id z : is_int z → int_wrap z = z.
Proof.
  unfold is_int, int_wrap, min_int, max_int, int_bits. intros Hz.
  rewrite Z.mod_small; lia.
Qed.

Lemma int_add_exact a b : is_int (a + b) → int_add a b = a + b.
Proof. apply int_wrap_id. Qed.

Lemma set_targetSize_same grp : set_targetSize (targetSize grp) grp = grp.
Proof. by destruct grp. Qed.

(** ** Running the monad *)

Lemma bind_Returns {A B} (c : M A) (k : A → M B) σ a σ' :
  c σ = Returns a σ' → bind c k σ = k a σ'.
Proof. unfold bind. by intros ->. Qed.

Lemma bind_inv {A B} (c : M A) (k : A → M B) σ b σ'' :
  bind c k σ = Returns b σ'' →
  ∃ a σ', c σ = Returns a σ' ∧ k a σ' = Returns b σ''.
Proof. unfold bind. destruct (c σ) as [a σ'|]; [eauto | done]. Qed.

Lemma load_manager_at σ m mgr :
  managers σ !! m = Some mgr → load_manager (Some m) σ = Returns mgr σ.
Proof. unfold load_manager. simpl. by intros ->. Qed.

Lemma load_group_at σ g grp :
  groups σ !! g = Some grp → load_group (Some g) σ = Returns grp σ.
Proof. unfold load_group. simpl. by intros ->. Qed.

Lemma load_manager_inv σ m mgr σ' :
  load_manager m σ = Returns mgr σ' →
  σ' = σ ∧ ∃ a, m = Some a ∧ managers σ !! a = Some mgr.
Proof.
  unfold load_manager. destruct m as [a|]; simpl; [|done].
  destruct (managers σ !! a) eqn:E; [|done].
  intros [= -> ->]. eauto.
Qed.

Lemma load_group_inv σ g grp σ' :
  load_group g σ = Returns grp σ' →
  σ' = σ ∧ ∃ a, g = Some a ∧ groups σ !! a = Some grp.
Proof.
  unfold load_group. destruct g as [a|]; simpl; [|done].
  destruct (groups σ !! a) eqn:E; [|done].
  intros [= -> ->]. eauto.
Qed.

(** ** The draining counter *)

Lemma draining_ptr_inv σ m g :
  draining_ptr σ m = Some g ↔
  ∃ mgr, managers σ !! m = Some mgr ∧ nodeGroups mgr !! drainingNodePoolId = Some g.
Proof.
  unfold draining_ptr. destruct (managers σ !! m) as [mgr|]; simpl.
  - split; [eauto | by intros (? & [= <-] & ?)].
  - split; [done | by intros (? & ? & ?)].
Qed.

(** One call, exactly: the group object under [drainingNodePoolId] gets
    [targetSize + 1] on [int], nothing else changes, and the pointer to
    that object comes back with a nil error. *)
Lemma addNodeToDrainingPool_run σ m g grp node :
  draining_at σ m g grp →
  addNodeToDrainingPool (Some m) node σ
  = Returns (Some g, None)
      (set_groups
         (<[g := set_targetSize (int_add (targetSize grp) 1) grp]> (groups σ)) σ).
Proof.
  intros [(mgr & Hm & Hg)%draining_ptr_inv Hgrp]. unfold addNodeToDrainingPool.
  rewrite (bind_Returns _ _ _ _ _ (load_manager_at _ _ _ Hm)).
  rewrite Hg.
  rewrite (bind_Returns _ _ _ _ _ (load_group_at _ _ _ Hgrp)).
  unfold bind at 1. simpl.
  erewrite bind_Returns; [|by apply load_manager_at].
  by rewrite Hg.
Qed.

Lemma draining_at_bump σ m g grp n :
  draining_at σ m g grp →
  draining_at (set_groups (<[g := set_targetSize n grp]> (groups σ)) σ)
    m g (set_targetSize n grp).
Proof. intros [Hp Hgrp]. split; [done|]. simpl. by rewrite lookup_insert_eq. Qed.

Lemma draining_at_group σ m g grp :
  draining_at σ m g grp → draining_group σ m = Some grp.
Proof. intros [Hp Hgrp]. unfold draining_group. by rewrite Hp. Qed.

(** The node plays no part in a call. *)
Lemma addNodeToDrainingPool_any_node σ m node node' :
  addNodeToDrainingPool m node σ = addNodeToDrainingPool m node' σ.
Proof. reflexivity. Qed.

(** A run of calls, as long as the counter stays below the largest
    [int]. *)
Lemma drainAll_run nodes : ∀ σ m g grp,
  draining_at σ m g grp →
  is_int (targetSize grp) →
  targetSize grp + Z.of_nat (length nodes) ≤ max_int →
  ∃ σ', drainAll (Some m) nodes σ
        = Returns (replicate (length nodes) (Some g, None)) σ'
      ∧ draining_at σ' m g
          (set_targetSize (targetSize grp + Z.of_nat (length nodes)) grp)
      ∧ groups σ'
        = <[g := set_targetSize (targetSize grp + Z.of_nat (length nodes)) grp]>
            (groups σ)
      ∧ managers σ' = managers σ ∧ environ σ' = environ σ
      ∧ cloud σ' = cloud σ ∧ calls σ' = calls σ.
Proof.
  induction nodes as [|node rest IH]; intros σ m g grp Hd Hint Hmax.
  - exists σ. simpl. rewrite Z.add_0_r, set_targetSize_same.
    split_and!; try done.
    destruct Hd as [_ Hgrp]. by rewrite insert_id.
  - simpl length in *.
    assert (Hone : int_add (targetSize grp) 1 = targetSize grp + 1).
    { apply int_add_exact. unfold is_int in *. lia. }
    pose proof (addNodeToDrainingPool_run σ m g grp node Hd) as Hrun.
    rewrite Hone in Hrun.
    pose proof (draining_at_bump σ m g grp (targetSize grp + 1) Hd) as Hd'.
    destruct (IH _ m g _ Hd') as (σ' & Hrest & Hd'' & Hgs & Hms & Henv & Hcl & Hcs).
    { simpl. unfold is_int in *. lia. }
    { simpl. lia. }
    simpl in Hd'', Hgs.
    replace (targetSize grp + 1 + Z.of_nat (length rest))
      with (targetSize grp + Z.of_nat (S (length rest))) in Hd'', Hgs by lia.
    exists σ'. split_and!; try done.
    + cbn [drainAll]. rewrite (bind_Returns _ _ _ _ _ Hrun).
      by rewrite (bind_Returns _ _ _ _ _ Hrest).
    + rewrite Hgs. simpl. by rewrite insert_insert_eq.
Qed.

End Basics.

(** ** The draining pool *)

Section Draining.

Context `{Ext : Externals} `{Cst : Constants}.

(** C1 (amended). On a manager that holds its draining group, and as long
    as the counter stays within Go's [int], [n] calls of
    [addNodeToDrainingPool] in a row all return the pointer to the draining
    group with a nil error and leave its [targetSize] at [k + n], and a
    single call leaves it at [k + 1]; no call reaches the hcloud client:
    the recorded calls and the cloud are as before. *)
Theorem drain_adds_one_per_call σ m g grp nodes :
  draining_at σ m g grp →
  is_int (targetSize grp) →
  targetSize grp + Z.of_nat (length nodes) ≤ max_int →
  (∃ σ',
      drainAll (Some m) nodes σ
      = Returns (replicate (length nodes) (Some g, None)) σ'
      ∧ draining_ptr σ' m = Some g
      ∧ draining_group σ' m
        = Some (set_targetSize (targetSize grp + Z.of_nat (length nodes)) grp)
      ∧ calls σ' = calls σ ∧ cloud σ' = cloud σ)
  ∧ (∀ node, targetSize grp < max_int →
      ∃ σ1,
        addNodeToDrainingPool (Some m) node σ = Returns (Some g, None) σ1
        ∧ draining_ptr σ1 m = Some g
        ∧ draining_group σ1 m = Some (set_targetSize (targetSize grp + 1) grp)
        ∧ calls σ1 = calls σ ∧ cloud σ1 = cloud σ).
Proof.
  intros Hd Hint Hmax. split.
  - destruct (drainAll_run nodes σ m g grp Hd Hint Hmax)
      as (σ' & Hrun & Hd' & _ & _ & _ & Hcl & Hcs).
    exists σ'. split_and!; try done.
    + by destruct Hd'.
    + by apply (draining_at_group _ _ g).
  - intros node Hlt.
    pose proof (addNodeToDrainingPool_run σ m g grp node Hd) as Hrun.
    rewrite int_add_exact in Hrun by (unfold is_int in *; lia).
    eexists. split; [exact Hrun|].
    pose proof (draining_at_bump σ m g grp (targetSize grp + 1) Hd) as Hd'.
    split_and!; try done.
    + by destruct Hd'.
    + by apply (draining_at_group _ _ g).
Qed.

(** C10. On a manager that holds its draining group,
    [addNodeToDrainingPool] returns, with a nil error, whatever the node is
    (a nil node too), and two calls from the same state with different
    nodes return the same value and leave the same state. *)
Theorem addNodeToDrainingPool_never_fails σ m g grp node node' :
  draining_at σ m g grp →
  (∃ σ', addNodeToDrainingPool (Some m) node σ = Returns (Some g, None) σ')
  ∧ addNodeToDrainingPool (Some m) node σ
    = addNodeToDrainingPool (Some m) node' σ.
Proof.
  intros Hd. split.
  - eexists. by apply addNodeToDrainingPool_run.
  - apply addNodeToDrainingPool_any_node.
Qed.

End Draining.

(** Scenario B of the spec: three calls after scenario A. *)
Lemma drain_adds_one_per_call_witness :
  (∃ σ',
      drainAll (Some 1%positive) Scenario.three_nodes Scenario.σ1
      = Returns (replicate 3 (Some 1%positive, None)) σ'
      ∧ draining_ptr σ' 1%positive = Some 1%positive
      ∧ draining_group σ' 1%positive
        = Some (set_targetSize (0 + Z.of_nat 3) Scenario.draining_A)
      ∧ calls σ' = calls Scenario.σ1 ∧ cloud σ' = cloud Scenario.σ1)
  ∧ (∀ node, 0 < max_int →
      ∃ σ1,
        addNodeToDrainingPool (Some 1%positive) node Scenario.σ1
        = Returns (Some 1%positive, None) σ1
        ∧ draining_ptr σ1 1%positive = Some 1%positive
        ∧ draining_group σ1 1%positive
          = Some (set_targetSize (0 + 1) Scenario.draining_A)
        ∧ calls σ1 = calls Scenario.σ1 ∧ cloud σ1 = cloud Scenario.σ1).
Proof.
  apply (drain_adds_one_per_call Scenario.σ1 1%positive 1%positive
           Scenario.draining_A Scenario.three_nodes).
  - split; reflexivity.
  - vm_compute. split; discriminate.
  - vm_compute. discriminate.
Defined.

Example scenario_B :
  (final (drainAll (Some 1%positive) Scenario.three_nodes Scenario.σ1)
   ≫= λ σ', targetSize <$> draining_group σ' 1%positive) = Some 3
  ∧ calls <$> final (drainAll (Some 1%positive) Scenario.three_nodes Scenario.σ1)
    = Some [].
Proof. split; reflexivity. Qed.

(** Where C1 fails as stated: a counter at the largest [int] wraps to the
    smallest one on the next call, not to [k + 1]. *)
Lemma drain_wraps_at_max_int :
  targetSize <$> draining_group Scenario.σ_full 1%positive = Some max_int
  ∧ returned (addNodeToDrainingPool (Some 1%positive) (Some Scenario.ghost)
                Scenario.σ_full)
    = Some (Some 1%positive, None)
  ∧ (final (addNodeToDrainingPool (Some 1%positive) (Some Scenario.ghost)
              Scenario.σ_full)
     ≫= λ σ', targetSize <$> draining_group σ' 1%positive) = Some min_int
  ∧ min_int ≠ max_int + 1.
Proof. split_and!; [reflexivity .. | by vm_compute]. Qed.

Lemma addNodeToDrainingPool_never_fails_witness :
  (∃ σ', addNodeToDrainingPool (Some 1%positive) (Some Scenario.ghost) Scenario.σ1
         = Returns (Some 1%positive, None) σ')
  ∧ addNodeToDrainingPool (Some 1%positive) (Some Scenario.ghost) Scenario.σ1
    = addNodeToDrainingPool (Some 1%positive) None Scenario.σ1.
Proof.
  apply (addNodeToDrainingPool_never_fails Scenario.σ1 1%positive 1%positive
           Scenario.draining_A).
  split; reflexivity.
Defined.

(** ** What the operations leave alone *)

Section Frames.

Context `{Ext : Externals} `{Cst : Constants}.

Ltac inv_run :=
  repeat match goal with
    | H : bind _ _ _ = Returns _ _ |- _ =>
        let H' := fresh "Hrun" in
        apply bind_inv in H as (? & ? & H' & H)
    | H : load_manager _ _ = Returns _ _ |- _ =>
        apply load_manager_inv in H as (-> & ? & ? & ?)
    | H : load_group _ _ = Returns _ _ |- _ =>
        apply load_group_inv in H as (-> & ? & ? & ?)
    | H : load_node ?n _ = Returns _ _ |- _ =>
        destruct n; [injection H as <- <- | discriminate H]
    | H : ret _ _ = Returns _ _ |- _ => injection H as <- <-
    | H : panic _ = Returns _ _ |- _ => discriminate H
    | H : os_Getenv _ _ = Returns _ _ |- _ => injection H as <- <-
    | H : match ?x with Some _ => _ | None => _ end _ = Returns _ _ |- _ =>
        destruct x eqn:?
    | H : (if ?b then _ else _) _ = Returns _ _ |- _ => destruct b eqn:?
    end.

Lemma client_Server_Get_kept c ctx q σ r σ' :
  client_Server_Get c ctx q σ = Returns r σ' → store_kept σ σ'.
Proof.
  unfold client_Server_Get. destruct (Server_Get _ _ _ _) as [r0 w].
  by intros [= <- <-].
Qed.

Lemma client_Server_Delete_kept c ctx s σ r σ' :
  client_Server_Delete c ctx s σ = Returns r σ' → store_kept σ σ'.
Proof.
  unfold client_Server_Delete. destruct (Server_Delete _ _ _ _) as [r0 w].
  by intros [= <- <-].
Qed.

Lemma client_Server_AllWithOpts_kept c ctx o σ r σ' :
  client_Server_AllWithOpts c ctx o σ = Returns r σ' → store_kept σ σ'.
Proof.
  unfold client_Server_AllWithOpts. destruct (Server_AllWithOpts _ _ _ _) as [r0 w].
  by intros [= <- <-].
Qed.

Lemma store_kept_trans σ1 σ2 σ3 :
  store_kept σ1 σ2 → store_kept σ2 σ3 → store_kept σ1 σ3.
Proof. intros [??] [??]. split; congruence. Qed.

Lemma serverForNode_kept m node σ r σ' :
  serverForNode m node σ = Returns r σ' → store_kept σ σ'.
Proof.
  unfold serverForNode. intros H. inv_run.
  all: by eapply client_Server_Get_kept.
Qed.

Lemma deleteServer_kept m s σ r σ' :
  deleteServer m s σ = Returns r σ' → store_kept σ σ'.
Proof.
  unfold deleteServer. intros H. inv_run.
  by eapply client_Server_Delete_kept.
Qed.

Lemma deleteByNode_kept m node σ r σ' :
  deleteByNode m node σ = Returns r σ' → store_kept σ σ'.
Proof.
  unfold deleteByNode. intros H.
  apply bind_inv in H as (r0 & σ0 & H0 & H).
  apply serverForNode_kept in H0.
  destruct (r0.2); [inv_run; done|].
  destruct (r0.1); [|inv_run; done].
  apply deleteServer_kept in H. by eapply store_kept_trans.
Qed.

Lemma allServers_kept m ng σ r σ' :
  allServers m ng σ = Returns r σ' → store_kept σ σ'.
Proof.
  unfold allServers. intros H. inv_run.
  all: by eapply client_Server_AllWithOpts_kept.
Qed.

End Frames.

Section Invariant.

Context `{Ext : Externals} `{Cst : Constants}.

(** A call of [addNodeToDrainingPool] that returns has rewritten one group
    object, and only its [targetSize]. *)
Lemma addNodeToDrainingPool_effect m node σ r σ' :
  addNodeToDrainingPool m node σ = Returns r σ' →
  managers σ' = managers σ
  ∧ ∃ g grp, groups σ !! g = Some grp
             ∧ groups σ'
               = <[g := set_targetSize (int_add (targetSize grp) 1) grp]> (groups σ).
Proof.
  unfold addNodeToDrainingPool. intros H.
  apply bind_inv in H as (mgr & σ0 & Hm & H).
  apply load_manager_inv in Hm as (-> & a & -> & Hm).
  apply bind_inv in H as (grp & σ0 & Hg & H).
  apply load_group_inv in Hg as (-> & g & Hg & Hgrp).
  rewrite Hg in H.
  apply bind_inv in H as ([] & σ0 & Hs & H).
  injection Hs as <-.
  apply bind_inv in H as (mgr' & σ1 & Hm' & H).
  apply load_manager_inv in Hm' as (-> & _).
  injection H as <- <-. simpl. eauto.
Qed.

(** A call of [newManager] either changes nothing or allocates: one
    manager and one group, both at addresses that were free. *)
Lemma newManager_effect σ r σ' :
  newManager σ = Returns r σ' →
  σ' = σ
  ∨ ∃ m g mgr grp,
      managers σ !! m = None ∧ groups σ !! g = None
      ∧ managers σ' = <[m := mgr]> (managers σ)
      ∧ groups σ' = <[g := grp]> (groups σ).
Proof.
  unfold newManager. intros H.
  apply bind_inv in H as (token & ? & [= <- <-] & H).
  case_decide; [injection H as <- <-; by left|].
  apply bind_inv in H as (ci & ? & [= <- <-] & H).
  case_decide; [injection H as <- <-; by left|].
  apply bind_inv in H as (img & ? & [= <- <-] & H).
  apply bind_inv in H as (tpl & ? & [= <- <-] & H).
  destruct (if decide (_ = "") then _ else _) as [nameTemplate [err|]];
    [injection H as <- <-; by left|].
  apply bind_inv in H as (keys & ? & [= <- <-] & H).
  destruct (base64_DecodeString _) as [cloudInit [err|]];
    [injection H as <- <-; by left|].
  apply bind_inv in H as (m & σ0 & [= <- <-] & H).
  apply bind_inv in H as (g & σ0 & [= <- <-] & H).
  apply bind_inv in H as (mgr & σ0 & Hm & H).
  apply load_manager_inv in Hm as (-> & _ & _ & _).
  apply bind_inv in H as ([] & σ0 & [= <-] & H).
  injection H as <- <-. right. simpl.
  eexists _, _, _, _. split_and!.
  - apply not_elem_of_dom, is_fresh.
  - apply not_elem_of_dom, is_fresh.
  - by rewrite insert_insert_eq.
  - done.
Qed.



End Invariant.



(** ** Prefixes of strings *)

Section Prefixes.

Lemma append_cons c s t : String c s +:+ t = String c (s +:+ t).
Proof. reflexivity. Qed.

Lemma append_empty_l s : "" +:+ s = s.
Proof. reflexivity. Qed.

Lemma append_empty_r s : s +:+ "" = s.
Proof. induction s as [|c s IH]; [done | by rewrite append_cons, IH]. Qed.

Lemma append_assoc s1 s2 s3 : (s1 +:+ s2) +:+ s3 = s1 +:+ (s2 +:+ s3).
Proof. induction s1 as [|c s1 IH]; [done | by rewrite !append_cons, IH]. Qed.

Lemma string_of_list_ascii_snoc l c :
  string_of_list_ascii (l ++ [c]) = string_of_list_ascii l +:+ String c "".
Proof.
  induction l as [|b l IH]; [done|].
  simpl. by rewrite append_cons, IH.
Qed.

Lemma prefix_empty s : String.prefix "" s = true.
Proof. by destruct s. Qed.

Lemma prefix_cons a p b s :
  String.prefix (String a p) (String b s) = true ↔ a = b ∧ String.prefix p s = true.
Proof.
  simpl. destruct (ascii_dec a b) as [->|Hne].
  - split; [by intros ? | by intros [_ ?]].
  - split; [done | by intros [? _]].
Qed.

Lemma prefix_append p s : String.prefix p (p +:+ s) = true.
Proof.
  induction p as [|a p IH]; [apply prefix_empty|].
  rewrite append_cons. by apply prefix_cons.
Qed.

Lemma drop_append p s : strings.drop (String.length p) (p +:+ s) = s.
Proof.
  induction p as [|a p IH]; [by destruct s|].
  by rewrite append_cons.
Qed.

Lemma prefix_drop p : ∀ s,
  String.prefix p s = true → s = p +:+ strings.drop (String.length p) s.
Proof.
  induction p as [|a p IH]; intros s Hp.
  - by destruct s.
  - destruct s as [|b s]; [done|].
    apply prefix_cons in Hp as [-> Hp].
    rewrite append_cons. simpl. f_equal. by apply IH.
Qed.

End Prefixes.

(** ** Resolving and deleting nodes *)

Section Resolution.

Context `{Ext : Externals} `{Cst : Constants}.

(** [serverForNode] makes one call, [Server.Get] with [nodeIdOrName], and
    turns its answer into the result. *)
Lemma serverForNode_run σ m mgr n :
  managers σ !! m = Some mgr →
  serverForNode (Some m) (Some n) σ
  = let get := Server_Get (client mgr) (apiCallContext mgr) (nodeIdOrName n) (cloud σ) in
    Returns
      match get.1.2 with
      | Some err =>
          (None, Some (errorString
                   ("failed to get servers for node " +:+ Name n +:+ " error: "
                    +:+ ext_error_Error err)))
      | None => (get.1.1, None)
      end
      (after_call (CallServerGet (nodeIdOrName n)) get.2 σ).
Proof.
  intros Hm. unfold serverForNode. simpl.
  unfold bind at 1. simpl.
  rewrite (bind_Returns _ _ _ _ _ (load_manager_at _ _ _ Hm)).
  unfold bind, client_Server_Get.
  destruct (Server_Get _ _ _ _) as [[s [e|]] w]; done.
Qed.

Lemma deleteServer_run σ m mgr s :
  managers σ !! m = Some mgr →
  deleteServer (Some m) s σ
  = let del := Server_Delete (client mgr) (apiCallContext mgr) s (cloud σ) in
    Returns (external <$> del.1) (after_call (CallServerDelete s) del.2 σ).
Proof.
  intros Hm. unfold deleteServer.
  rewrite (bind_Returns _ _ _ _ _ (load_manager_at _ _ _ Hm)).
  unfold bind, client_Server_Delete.
  destruct (Server_Delete _ _ _ _) as [e w]; done.
Qed.

(** C3. For a node with a non-empty provider identifier,
    [serverForNode] asks the client for the provider identifier without the
    scheme prefix: an identifier made of the prefix and a rest is looked up
    by the rest, an identifier that does not start with the prefix by the
    whole identifier; and a node with the same provider identifier under
    any other name gets the same server and leaves the same state. For a
    node with an empty provider identifier it asks for the node's name. *)
Theorem serverForNode_prefers_provider_id σ m mgr n :
  managers σ !! m = Some mgr →
  ∃ r σ',
    serverForNode (Some m) (Some n) σ = Returns r σ'
    ∧ (ProviderID n ≠ "" →
         (∀ rest, ProviderID n = providerIDPrefix +:+ rest →
            calls σ' = calls σ ++ [CallServerGet rest])
         ∧ ((∀ rest, ProviderID n ≠ providerIDPrefix +:+ rest) →
              calls σ' = calls σ ++ [CallServerGet (ProviderID n)])
         ∧ ∀ name', ∃ r',
             serverForNode (Some m)
               (Some {| Name := name'; ProviderID := ProviderID n |}) σ
             = Returns r' σ'
             ∧ r'.1 = r.1 ∧ (r'.2 = None ↔ r.2 = None))
    ∧ (ProviderID n = "" → calls σ' = calls σ ++ [CallServerGet (Name n)]).
Proof.
  intros Hm. eexists _, _. split; [by apply serverForNode_run|].
  split.
  - intros Hpid. split_and!.
    + intros rest Hrest. simpl. unfold nodeIdOrName.
      rewrite decide_True by done.
      unfold strings.TrimPrefix, strings.HasPrefix.
      by rewrite Hrest, prefix_append, drop_append.
    + intros Hnot. simpl. unfold nodeIdOrName.
      rewrite decide_True by done.
      unfold strings.TrimPrefix, strings.HasPrefix.
      destruct (String.prefix providerIDPrefix (ProviderID n)) eqn:Hp; [|done].
      apply prefix_drop in Hp. by destruct (Hnot _ Hp).
    + intros name'. eexists. rewrite (serverForNode_run _ _ _ _ Hm).
      unfold nodeIdOrName. simpl. rewrite !decide_True by done.
      split; [done|].
      destruct (Server_Get _ _ _ _) as [[s [e|]] w]; simpl; done.
  - intros Hpid. simpl. unfold nodeIdOrName. rewrite decide_False; [done|].
    by intros ?.
Qed.

(** C2 (amended). When the client answers the lookup of a node with no
    server and no error, [serverForNode] returns a nil server and a nil
    error; when the client answers with an error, it returns a nil server
    and the error [failed to get servers for node <name> error: <err>];
    and when the client answers with a server and no error, that server. *)
Theorem serverForNode_absent_is_nil σ m mgr n :
  managers σ !! m = Some mgr →
  let answer :=
    (Server_Get (client mgr) (apiCallContext mgr) (nodeIdOrName n) (cloud σ)).1 in
  (answer = (None, None) →
     returned (serverForNode (Some m) (Some n) σ) = Some (None, None))
  ∧ (∀ s e, answer = (s, Some e) →
       returned (serverForNode (Some m) (Some n) σ)
       = Some (None, Some (errorString
                 ("failed to get servers for node " +:+ Name n +:+ " error: "
                  +:+ ext_error_Error e))))
  ∧ (∀ s, answer = (Some s, None) →
       returned (serverForNode (Some m) (Some n) σ) = Some (Some s, None)).
Proof.
  intros Hm answer. subst answer.
  rewrite (serverForNode_run _ _ _ _ Hm). simpl.
  split_and!; [intros -> | intros s e -> | intros s ->]; done.
Qed.

(** C6. [deleteByNode] first looks the node up. When the client answers
    with no server and no error, it returns the error
    [failed to delete node <name> server not found] and has made the lookup
    call only; when the lookup itself fails, it returns the lookup error
    behind [failed to delete node <name> error: ], again without a delete
    call; when the lookup gives a server and the client's delete call
    returns an error, it returns that very error. *)
Theorem deleteByNode_resolves_then_deletes σ m mgr n :
  managers σ !! m = Some mgr →
  let get :=
    Server_Get (client mgr) (apiCallContext mgr) (nodeIdOrName n) (cloud σ) in
  (get.1 = (None, None) →
     ∃ σ',
       deleteByNode (Some m) (Some n) σ
       = Returns (Some (errorString
                    ("failed to delete node " +:+ Name n +:+ " server not found")))
           σ'
       ∧ calls σ' = calls σ ++ [CallServerGet (nodeIdOrName n)])
  ∧ (∀ s e, get.1 = (s, Some e) →
       ∃ σ',
         deleteByNode (Some m) (Some n) σ
         = Returns (Some (errorString
                      ("failed to delete node " +:+ Name n +:+ " error: "
                       +:+ "failed to get servers for node " +:+ Name n
                       +:+ " error: " +:+ ext_error_Error e)))
             σ'
         ∧ calls σ' = calls σ ++ [CallServerGet (nodeIdOrName n)])
  ∧ (∀ s e, get.1 = (Some s, None) →
       (Server_Delete (client mgr) (apiCallContext mgr) (Some s) get.2).1 = Some e →
       ∃ σ',
         deleteByNode (Some m) (Some n) σ = Returns (Some (external e)) σ'
         ∧ calls σ'
           = calls σ ++ [CallServerGet (nodeIdOrName n); CallServerDelete (Some s)]).
Proof.
  intros Hm get. subst get. unfold deleteByNode.
  rewrite (bind_Returns _ _ _ _ _ (serverForNode_run _ _ _ _ Hm)).
  destruct (Server_Get _ _ _ _) as [[s0 e0] w]. simpl.
  split_and!.
  - intros [= -> ->]. simpl. eauto.
  - intros s e [= -> ->]. simpl. eauto.
  - intros s e [= -> ->] Hdel. simpl.
    rewrite (deleteServer_run _ _ mgr) by done. simpl in *.
    destruct (Server_Delete _ _ _ _) as [e' w']. simpl in *. subst e'.
    eexists. split; [done|]. simpl. by rewrite <- app_assoc.
Qed.

End Resolution.

Example manager_A_built :
  managers Scenario.σ1 !! 1%positive = Some Scenario.manager_A.
Proof. reflexivity. Qed.

Lemma serverForNode_prefers_provider_id_witness :
  (∃ r σ',
     serverForNode (Some 1%positive) (Some Scenario.renamed) Scenario.σ1
     = Returns r σ'
     ∧ calls σ' = [CallServerGet "42"]
     ∧ ∀ name', ∃ r',
         serverForNode (Some 1%positive)
           (Some {| Name := name'; ProviderID := "hcloud://42" |}) Scenario.σ1
         = Returns r' σ'
         ∧ r'.1 = r.1 ∧ (r'.2 = None ↔ r.2 = None))
  ∧ (∃ r σ',
       serverForNode (Some 1%positive) (Some Scenario.unlabelled) Scenario.σ1
       = Returns r σ'
       ∧ calls σ' = [CallServerGet "worker-1"]).
Proof.
  split.
  - destruct (serverForNode_prefers_provider_id Scenario.σ1 1%positive
                Scenario.manager_A Scenario.renamed eq_refl)
      as (r & σ' & Hrun & Hpid & _).
    destruct Hpid as (Hstrip & _ & Hname); [discriminate|].
    exists r, σ'. split; [exact Hrun|]. split; [|exact Hname].
    exact (Hstrip "42" eq_refl).
  - destruct (serverForNode_prefers_provider_id Scenario.σ1 1%positive
                Scenario.manager_A Scenario.unlabelled eq_refl)
      as (r & σ' & Hrun & _ & Hname).
    exists r, σ'. split; [exact Hrun|]. exact (Hname eq_refl).
Defined.

Example resolve_by_provider_id :
  calls <$> final (serverForNode (Some 1%positive) (Some Scenario.renamed) Scenario.σ1)
  = Some [CallServerGet "42"]
  ∧ returned (serverForNode (Some 1%positive) (Some Scenario.renamed) Scenario.σ1)
    = Some (Some Scenario.worker1, None).
Proof. split; reflexivity. Qed.

Example resolve_by_name :
  calls <$> final (serverForNode (Some 1%positive) (Some Scenario.unlabelled) Scenario.σ1)
  = Some [CallServerGet "worker-1"].
Proof. reflexivity. Qed.

(** Where C2 fails as stated (scenario C of the spec): the node's provider
    identifier names server 99, the client reports that there is no such
    server, and [serverForNode] returns without an error. *)
Lemma serverForNode_not_found_is_no_error :
  nodeIdOrName Scenario.ghost = "99"
  ∧ (Server_Get (client Scenario.manager_A) (apiCallContext Scenario.manager_A) "99"
       (cloud Scenario.σ1)).1 = (None, None)
  ∧ returned (serverForNode (Some 1%positive) (Some Scenario.ghost) Scenario.σ1)
    = Some (None, None).
Proof. split_and!; reflexivity. Qed.

Lemma serverForNode_absent_is_nil_witness :
  returned (serverForNode (Some 1%positive) (Some Scenario.ghost) Scenario.σ1)
  = Some (None, None)
  ∧ returned (serverForNode (Some 1%positive) (Some Scenario.renamed)
                Scenario.σ_offline)
    = Some (None, Some (errorString
              "failed to get servers for node node-a error: connection refused"))
  ∧ returned (serverForNode (Some 1%positive) (Some Scenario.renamed) Scenario.σ1)
    = Some (Some Scenario.worker1, None).
Proof.
  split_and!.
  - destruct (serverForNode_absent_is_nil Scenario.σ1 1%positive
                Scenario.manager_A Scenario.ghost eq_refl) as (H & _ & _).
    exact (H eq_refl).
  - destruct (serverForNode_absent_is_nil Scenario.σ_offline 1%positive
                Scenario.manager_A Scenario.renamed eq_refl) as (_ & H & _).
    exact (H None "connection refused" eq_refl).
  - destruct (serverForNode_absent_is_nil Scenario.σ1 1%positive
                Scenario.manager_A Scenario.renamed eq_refl) as (_ & _ & H).
    exact (H Scenario.worker1 eq_refl).
Defined.

Lemma deleteByNode_resolves_then_deletes_witness :
  (∃ σ',
     deleteByNode (Some 1%positive) (Some Scenario.ghost) Scenario.σ1
     = Returns (Some (errorString
                  "failed to delete node worker-9 server not found")) σ'
     ∧ calls σ' = [CallServerGet "99"])
  ∧ (∃ σ',
       deleteByNode (Some 1%positive) (Some Scenario.renamed) Scenario.σ_offline
       = Returns (Some (errorString
                    "failed to delete node node-a error: failed to get servers for node node-a error: connection refused")) σ'
       ∧ calls σ' = [CallServerGet "42"])
  ∧ (∃ σ',
       deleteByNode (Some 1%positive) (Some Scenario.renamed) Scenario.σ_locked
       = Returns (Some (external "server is locked")) σ'
       ∧ calls σ' = [CallServerGet "42"; CallServerDelete (Some Scenario.worker1)]).
Proof.
  split_and!.
  - destruct (deleteByNode_resolves_then_deletes Scenario.σ1 1%positive
                Scenario.manager_A Scenario.ghost eq_refl) as (H & _ & _).
    exact (H eq_refl).
  - destruct (deleteByNode_resolves_then_deletes Scenario.σ_offline 1%positive
                Scenario.manager_A Scenario.renamed eq_refl) as (_ & H & _).
    exact (H None "connection refused" eq_refl).
  - destruct (deleteByNode_resolves_then_deletes Scenario.σ_locked 1%positive
                Scenario.manager_A Scenario.renamed eq_refl) as (_ & _ & H).
    exact (H Scenario.worker1 "server is locked" eq_refl eq_refl).
Defined.

(** ** Construction *)

Section Construction.

Context `{Ext : Externals} `{Cst : Constants}.

Lemma bind_getenv {B} key (k : string → M B) σ :
  bind (os_Getenv key) k σ = k (getenv σ key) σ.
Proof. reflexivity. Qed.

(** The last steps of [newManager]: the two allocations and the entry of
    the map. *)
Lemma newManager_allocates mgr0 σ :
  let m := fresh (dom (managers σ)) in
  let g := fresh (dom (groups σ)) in
  ∃ σ',
    bind (new_manager mgr0) (λ m,
      bind (new_group {| manager := Some m; instanceType := "cx11";
                         region := "fsn1"; targetSize := 0; maxSize := 0;
                         minSize := 0; id := drainingNodePoolId |}) (λ g,
        bind (load_manager (Some m)) (λ mgr,
          bind (store_manager m
                  (set_nodeGroups (<[drainingNodePoolId := g]> (nodeGroups mgr)) mgr))
            (λ _, ret (Some m, None : option error))))) σ
    = Returns (Some m, None) σ'
    ∧ managers σ'
      = <[m := set_nodeGroups (<[drainingNodePoolId := g]> (nodeGroups mgr0)) mgr0]>
          (managers σ)
    ∧ groups σ'
      = <[g := {| id := drainingNodePoolId; manager := Some m;
                  minSize := 0; maxSize := 0; targetSize := 0;
                  region := "fsn1"; instanceType := "cx11" |}]> (groups σ)
    ∧ environ σ' = environ σ ∧ cloud σ' = cloud σ ∧ calls σ' = calls σ.
Proof.
  intros m g.
  unfold bind at 1. unfold new_manager at 1. fold m.
  unfold bind at 1. unfold new_group at 1.
  cbn [groups set_managers]. fold g.
  erewrite bind_Returns;
    [|apply load_manager_at; cbn [managers set_groups set_managers];
      apply lookup_insert_eq].
  unfold bind, store_manager, ret. eexists. split; [reflexivity|].
  cbn [managers groups environ cloud calls set_groups set_managers].
  by rewrite insert_insert_eq.
Qed.

(** The manager and the group that [newManager] allocates, as functions of
    the environment. *)
Lemma newManager_succeeds σ :
  getenv σ "HCLOUD_TOKEN" ≠ "" →
  getenv σ "HCLOUD_CLOUD_INIT" ≠ "" →
  (getenv σ "HCLOUD_NAME_TEMPLATE" ≠ "" →
   (template_Parse "nameTemplate" nameTemplateFuncMap
      (getenv σ "HCLOUD_NAME_TEMPLATE")).2 = None) →
  (base64_DecodeString (getenv σ "HCLOUD_CLOUD_INIT")).2 = None →
  let m := fresh (dom (managers σ)) in
  let g := fresh (dom (groups σ)) in
  ∃ σ',
    newManager σ = Returns (Some m, None) σ'
    ∧ managers σ'
      = <[m := {| client := hcloud_NewClient (getenv σ "HCLOUD_TOKEN");
                  nodeGroups := {[ drainingNodePoolId := g ]};
                  apiCallContext := context_Background;
                  cloudInit :=
                    (base64_DecodeString (getenv σ "HCLOUD_CLOUD_INIT")).1;
                  image :=
                    if decide (getenv σ "HCLOUD_IMAGE" = "") then "ubuntu-20.04"
                    else getenv σ "HCLOUD_IMAGE";
                  nameTemplate :=
                    if decide (getenv σ "HCLOUD_NAME_TEMPLATE" = "") then None
                    else (template_Parse "nameTemplate" nameTemplateFuncMap
                            (getenv σ "HCLOUD_NAME_TEMPLATE")).1;
                  sshKeys := strings.Split (getenv σ "HCLOUD_SSH_KEY") "," |}]>
          (managers σ)
    ∧ groups σ'
      = <[g := {| id := drainingNodePoolId; manager := Some m;
                  minSize := 0; maxSize := 0; targetSize := 0;
                  region := "fsn1"; instanceType := "cx11" |}]> (groups σ)
    ∧ environ σ' = environ σ ∧ cloud σ' = cloud σ ∧ calls σ' = calls σ.
Proof.
  intros Htok Hci Htpl Hdec m g. unfold newManager.
  rewrite bind_getenv, decide_False by done.
  rewrite bind_getenv, decide_False by done.
  rewrite !bind_getenv.
  destruct (decide (getenv σ "HCLOUD_NAME_TEMPLATE" = "")) as [Hno|Hyes].
  - destruct (base64_DecodeString _) as [cloudInit [e|]]; [done|].
    rewrite bind_getenv. by apply newManager_allocates.
  - specialize (Htpl Hyes).
    destruct (template_Parse _ _ _) as [tpl [e|]]; [done|].
    destruct (base64_DecodeString _) as [cloudInit [e|]]; [done|].
    rewrite bind_getenv. by apply newManager_allocates.
Qed.

(** The four ways [newManager] gives up; the state is left as it was. *)
Lemma newManager_no_token σ :
  getenv σ "HCLOUD_TOKEN" = "" →
  newManager σ
  = Returns (None, Some (errorString "`HCLOUD_TOKEN` is not specified")) σ.
Proof.
  intros H. unfold newManager. by rewrite bind_getenv, decide_True.
Qed.

Lemma newManager_no_cloud_init σ :
  getenv σ "HCLOUD_TOKEN" ≠ "" →
  getenv σ "HCLOUD_CLOUD_INIT" = "" →
  newManager σ
  = Returns (None, Some (errorString "`HCLOUD_CLOUD_INIT` is not specified")) σ.
Proof.
  intros Htok H. unfold newManager.
  rewrite bind_getenv, decide_False by done.
  by rewrite bind_getenv, decide_True.
Qed.

Lemma newManager_bad_template σ e :
  getenv σ "HCLOUD_TOKEN" ≠ "" →
  getenv σ "HCLOUD_CLOUD_INIT" ≠ "" →
  getenv σ "HCLOUD_NAME_TEMPLATE" ≠ "" →
  (template_Parse "nameTemplate" nameTemplateFuncMap
     (getenv σ "HCLOUD_NAME_TEMPLATE")).2 = Some e →
  newManager σ
  = Returns (None, Some (errorString
               ("failed to parse name template: " +:+ ext_error_Error e))) σ.
Proof.
  intros Htok Hci Hyes Htpl. unfold newManager.
  rewrite bind_getenv, decide_False by done.
  rewrite bind_getenv, decide_False by done.
  rewrite !bind_getenv, decide_False by done.
  destruct (template_Parse _ _ _) as [tpl err]. simpl in Htpl. by subst err.
Qed.

Lemma newManager_bad_base64 σ e :
  getenv σ "HCLOUD_TOKEN" ≠ "" →
  getenv σ "HCLOUD_CLOUD_INIT" ≠ "" →
  (getenv σ "HCLOUD_NAME_TEMPLATE" ≠ "" →
   (template_Parse "nameTemplate" nameTemplateFuncMap
      (getenv σ "HCLOUD_NAME_TEMPLATE")).2 = None) →
  (base64_DecodeString (getenv σ "HCLOUD_CLOUD_INIT")).2 = Some e →
  newManager σ
  = Returns (None, Some (errorString
               ("failed to parse cloud init error: " +:+ ext_error_Error e))) σ.
Proof.
  intros Htok Hci Htpl Hdec. unfold newManager.
  rewrite bind_getenv, decide_False by done.
  rewrite bind_getenv, decide_False by done.
  rewrite !bind_getenv.
  destruct (decide (getenv σ "HCLOUD_NAME_TEMPLATE" = "")) as [Hno|Hyes].
  - destruct (base64_DecodeString _) as [cloudInit err]. simpl in Hdec.
    by subst err.
  - specialize (Htpl Hyes).
    destruct (template_Parse _ _ _) as [tpl [err|]]; [done|].
    destruct (base64_DecodeString _) as [cloudInit err]. simpl in Hdec.
    by subst err.
Qed.

(** A manager comes back only when nothing was wrong with the
    configuration. *)
Lemma newManager_inv σ m σ' :
  newManager σ = Returns (Some m, None) σ' →
  getenv σ "HCLOUD_TOKEN" ≠ ""
  ∧ getenv σ "HCLOUD_CLOUD_INIT" ≠ ""
  ∧ (getenv σ "HCLOUD_NAME_TEMPLATE" ≠ "" →
     (template_Parse "nameTemplate" nameTemplateFuncMap
        (getenv σ "HCLOUD_NAME_TEMPLATE")).2 = None)
  ∧ (base64_DecodeString (getenv σ "HCLOUD_CLOUD_INIT")).2 = None.
Proof.
  intros Hrun.
  destruct (decide (getenv σ "HCLOUD_TOKEN" = "")) as [Htok|Htok].
  { by rewrite newManager_no_token in Hrun. }
  destruct (decide (getenv σ "HCLOUD_CLOUD_INIT" = "")) as [Hci|Hci].
  { by rewrite newManager_no_cloud_init in Hrun. }
  assert (Htpl : getenv σ "HCLOUD_NAME_TEMPLATE" ≠ "" →
                 (template_Parse "nameTemplate" nameTemplateFuncMap
                    (getenv σ "HCLOUD_NAME_TEMPLATE")).2 = None).
  { intros Hyes.
    destruct (template_Parse _ _ _).2 as [e|] eqn:E; [|done].
    by rewrite (newManager_bad_template _ e) in Hrun. }
  split_and!; try done.
  destruct (base64_DecodeString _).2 as [e|] eqn:E; [|done].
  by rewrite (newManager_bad_base64 _ e) in Hrun.
Qed.



(** C4. With an empty (or unset) [HCLOUD_TOKEN], with an empty
    [HCLOUD_CLOUD_INIT], or with an [HCLOUD_CLOUD_INIT] that the base64
    decoder rejects, [newManager] returns a nil manager and an error, and
    the state is what it was: nothing has been allocated. The error names
    the variable that is missing, or carries the decoder's message (or the
    template parser's, when a template is set and does not parse either:
    the template is looked at first). *)
Theorem newManager_rejects_bad_configuration σ :
  getenv σ "HCLOUD_TOKEN" = ""
  ∨ getenv σ "HCLOUD_CLOUD_INIT" = ""
  ∨ is_Some (base64_DecodeString (getenv σ "HCLOUD_CLOUD_INIT")).2 →
  ∃ msg,
    newManager σ = Returns (None, Some (errorString msg)) σ
    ∧ (getenv σ "HCLOUD_TOKEN" = "" → msg = "`HCLOUD_TOKEN` is not specified")
    ∧ (getenv σ "HCLOUD_TOKEN" ≠ "" → getenv σ "HCLOUD_CLOUD_INIT" = "" →
         msg = "`HCLOUD_CLOUD_INIT` is not specified")
    ∧ (getenv σ "HCLOUD_TOKEN" ≠ "" → getenv σ "HCLOUD_CLOUD_INIT" ≠ "" →
         (∃ e, getenv σ "HCLOUD_NAME_TEMPLATE" ≠ ""
               ∧ (template_Parse "nameTemplate" nameTemplateFuncMap
                    (getenv σ "HCLOUD_NAME_TEMPLATE")).2 = Some e
               ∧ msg = "failed to parse name template: " +:+ ext_error_Error e)
         ∨ (∃ e, (base64_DecodeString (getenv σ "HCLOUD_CLOUD_INIT")).2 = Some e
                 ∧ msg = "failed to parse cloud init error: " +:+ ext_error_Error e)).
Proof.
  intros Hbad.
  destruct (decide (getenv σ "HCLOUD_TOKEN" = "")) as [Htok|Htok].
  { eexists. split; [by apply newManager_no_token|]. by split_and!. }
  destruct (decide (getenv σ "HCLOUD_CLOUD_INIT" = "")) as [Hci|Hci].
  { eexists. split; [by apply newManager_no_cloud_init|]. by split_and!. }
  destruct Hbad as [?|[?|[e He]]]; [done..|].
  destruct (decide (getenv σ "HCLOUD_NAME_TEMPLATE" = "")) as [Hno|Hyes].
  { eexists. split; [by apply (newManager_bad_base64 _ e)|].
    split_and!; try done. intros _ _. right. by exists e. }
  destruct (template_Parse "nameTemplate" nameTemplateFuncMap
              (getenv σ "HCLOUD_NAME_TEMPLATE")).2 as [e'|] eqn:E.
  - eexists. split; [by apply (newManager_bad_template _ e')|].
    split_and!; try done. intros _ _. left. by exists e'.
  - eexists. split; [by apply (newManager_bad_base64 _ e)|].
    split_and!; try done. intros _ _. right. by exists e.
Qed.

(** C5. With a non-empty [HCLOUD_TOKEN], a non-empty [HCLOUD_CLOUD_INIT]
    that the base64 decoder accepts and no [HCLOUD_NAME_TEMPLATE],
    [newManager] returns a new manager and a nil error. The manager's
    [nodeGroups] holds one entry, under [drainingNodePoolId]: a new group
    with [targetSize], [minSize] and [maxSize] all 0, instance type [cx11],
    region [fsn1], that id, and a pointer back to the manager. The manager
    has no name template and the decoded cloud-init; no call has been made
    on the client. *)
Theorem newManager_registers_draining_group σ :
  getenv σ "HCLOUD_TOKEN" ≠ "" →
  getenv σ "HCLOUD_CLOUD_INIT" ≠ "" →
  (base64_DecodeString (getenv σ "HCLOUD_CLOUD_INIT")).2 = None →
  getenv σ "HCLOUD_NAME_TEMPLATE" = "" →
  ∃ m g mgr σ',
    newManager σ = Returns (Some m, None) σ'
    ∧ managers σ !! m = None ∧ groups σ !! g = None
    ∧ managers σ' = <[m := mgr]> (managers σ)
    ∧ groups σ'
      = <[g := {| id := drainingNodePoolId; manager := Some m;
                  minSize := 0; maxSize := 0; targetSize := 0;
                  region := "fsn1"; instanceType := "cx11" |}]> (groups σ)
    ∧ nodeGroups mgr = {[ drainingNodePoolId := g ]}
    ∧ nameTemplate mgr = None
    ∧ cloudInit mgr = (base64_DecodeString (getenv σ "HCLOUD_CLOUD_INIT")).1
    ∧ calls σ' = calls σ ∧ cloud σ' = cloud σ.
Proof.
  intros Htok Hci Hdec Hno.
  destruct (newManager_succeeds σ Htok Hci) as (σ' & Hrun & Hms & Hgs & _ & Hcl & Hcs);
    [done | done |].
  eexists _, _, _, σ'. split; [exact Hrun|].
  split_and!; try done.
  - apply not_elem_of_dom, is_fresh.
  - apply not_elem_of_dom, is_fresh.
  - simpl. by rewrite decide_True.
Qed.

(** C8, as the code has it. When [HCLOUD_SSH_KEY] is empty or unset, the
    manager that [newManager] returns holds one SSH key, the empty string:
    [strings.Split] of the empty string is a slice of length one. *)
Theorem newManager_sshKeys_of_empty σ m σ' :
  getenv σ "HCLOUD_SSH_KEY" = "" →
  newManager σ = Returns (Some m, None) σ' →
  sshKeys <$> managers σ' !! m = Some [""].
Proof.
  intros Hkey Hrun.
  destruct (newManager_inv _ _ _ Hrun) as (Htok & Hci & Htpl & Hdec).
  destruct (newManager_succeeds σ Htok Hci Htpl Hdec) as (σ'' & Hrun' & Hms & _).
  rewrite Hrun in Hrun'. injection Hrun' as -> ->.
  rewrite Hms, lookup_insert_eq. simpl. by rewrite Hkey.
Qed.


End Construction.

Lemma newManager_rejects_bad_configuration_witness :
  newManager Scenario.σ_no_token
  = Returns (None, Some (errorString "`HCLOUD_TOKEN` is not specified"))
      Scenario.σ_no_token
  ∧ newManager Scenario.σ_no_cloud_init
    = Returns (None, Some (errorString "`HCLOUD_CLOUD_INIT` is not specified"))
        Scenario.σ_no_cloud_init
  ∧ ∃ msg,
      newManager Scenario.σ_bad_base64
      = Returns (None, Some (errorString msg)) Scenario.σ_bad_base64.
Proof.
  split_and!.
  - destruct (newManager_rejects_bad_configuration Scenario.σ_no_token
                (or_introl eq_refl))
      as (msg & Hrun & Hmsg & _).
    by rewrite (Hmsg eq_refl) in Hrun.
  - destruct (newManager_rejects_bad_configuration Scenario.σ_no_cloud_init
                (or_intror (or_introl eq_refl)))
      as (msg & Hrun & _ & Hmsg & _).
    rewrite Hmsg in Hrun; [exact Hrun | discriminate | reflexivity].
  - destruct (newManager_rejects_bad_configuration Scenario.σ_bad_base64
                (or_intror (or_intror (ex_intro _ "illegal base64 data" eq_refl))))
      as (msg & Hrun & _).
    by exists msg.
Defined.

Example bad_base64_message :
  returned (newManager Scenario.σ_bad_base64)
  = Some (None, Some (errorString
            "failed to parse cloud init error: illegal base64 data")).
Proof. reflexivity. Qed.

(** Scenario A of the spec. *)
Lemma newManager_registers_draining_group_witness :
  ∃ m g mgr σ',
    newManager Scenario.σA = Returns (Some m, None) σ'
    ∧ managers Scenario.σA !! m = None ∧ groups Scenario.σA !! g = None
    ∧ managers σ' = <[m := mgr]> (managers Scenario.σA)
    ∧ groups σ'
      = <[g := {| id := drainingNodePoolId; manager := Some m;
                  minSize := 0; maxSize := 0; targetSize := 0;
                  region := "fsn1"; instanceType := "cx11" |}]>
          (groups Scenario.σA)
    ∧ nodeGroups mgr = {[ drainingNodePoolId := g ]}
    ∧ nameTemplate mgr = None
    ∧ cloudInit mgr
      = (base64_DecodeString (getenv Scenario.σA "HCLOUD_CLOUD_INIT")).1
    ∧ calls σ' = calls Scenario.σA ∧ cloud σ' = cloud Scenario.σA.
Proof.
  apply (newManager_registers_draining_group Scenario.σA).
  - discriminate.
  - discriminate.
  - reflexivity.
  - reflexivity.
Defined.

Example scenario_A :
  returned (newManager Scenario.σA) = Some (Some 1%positive, None)
  ∧ managers Scenario.σ1 = {[ 1%positive := Scenario.manager_A ]}
  ∧ groups Scenario.σ1 = {[ 1%positive := Scenario.draining_A ]}
  ∧ cloudInit Scenario.manager_A = "hello".
Proof. split_and!; reflexivity. Qed.

(** The failing input of C8: scenario A sets no [HCLOUD_SSH_KEY]. *)
Lemma newManager_sshKeys_of_empty_witness :
  sshKeys <$> managers Scenario.σ1 !! 1%positive = Some [""].
Proof.
  apply (newManager_sshKeys_of_empty Scenario.σA 1%positive Scenario.σ1);
    reflexivity.
Defined.




Example unknown_function_rejected :
  template.identifiers "{{indexFunc .GroupId}}-{{.Seq}}" = ["indexFunc"]
  ∧ returned (newManager Scenario.σ_bad_template)
    = Some (None, Some (errorString
              ("failed to parse name template: "
               +:+ "template: nameTemplate:1: function " +:+ Double.dquote
               +:+ "indexFunc" +:+ Double.dquote +:+ " not defined"))).
Proof. split; reflexivity. Qed.

Example catalog_function_accepted :
  template.identifiers "{{toUpper .GroupId}}-{{.Seq}}" = ["toUpper"]
  ∧ returned (newManager Scenario.σ_full_env) = Some (Some 1%positive, None).
Proof. split; reflexivity. Qed.


(** * Further properties *)

(** ** [strings.Split], [strings.Join] and [strings.TrimPrefix] *)

Section StringFacts.

Lemma split_from_length sep s : ∀ skip cur,
  length (strings.split_from sep skip cur s) = S (strings.count_from sep skip s).
Proof.
  induction s as [|c s IH]; intros skip cur;
    cbn [strings.split_from strings.count_from]; [done|].
  destruct skip as [|k]; [|apply IH].
  destruct (String.prefix sep (String c s)); [|apply IH].
  cbn [length]. f_equal. apply IH.
Qed.

Lemma split_from_not_nil sep s skip cur : strings.split_from sep skip cur s ≠ [].
Proof.
  intros H. pose proof (split_from_length sep s skip cur) as Hl.
  by rewrite H in Hl.
Qed.

Lemma Join_cons x l sep :
  l ≠ [] → strings.Join (x :: l) sep = x +:+ sep +:+ strings.Join l sep.
Proof. by destruct l. Qed.

Lemma Join_split_from sep s : ∀ skip cur,
  sep ≠ "" →
  strings.Join (strings.split_from sep skip cur s) sep
  = string_of_list_ascii (rev cur) +:+ strings.drop skip s.
Proof.
  induction s as [|c s IH]; intros skip cur Hsep.
  - destruct skip; cbn [strings.split_from strings.drop strings.Join];
      by rewrite append_empty_r.
  - destruct skip as [|k]; [|by apply IH].
    cbn [strings.split_from strings.drop].
    destruct (String.prefix sep (String c s)) eqn:Hp.
    + rewrite Join_cons by apply split_from_not_nil.
      rewrite IH by done. cbn [rev string_of_list_ascii].
      rewrite append_empty_l. f_equal.
      destruct sep as [|a sep]; [done|].
      apply prefix_cons in Hp as [-> Hp].
      cbn [String.length]. rewrite Nat.sub_succ, Nat.sub_0_r.
      rewrite append_cons. f_equal. symmetry. by apply prefix_drop.
    + rewrite IH by done. cbn [rev strings.drop].
      rewrite string_of_list_ascii_snoc, append_assoc. done.
Qed.

Lemma split_from_char_free c s : ∀ cur piece,
  c ∉ cur →
  piece ∈ strings.split_from (String c "") O cur s →
  c ∉ list_ascii_of_string piece.
Proof.
  induction s as [|b s IH]; intros cur piece Hcur Hin.
  - simpl in Hin. apply list_elem_of_singleton in Hin as ->.
    rewrite list_ascii_of_string_of_list_ascii.
      by rewrite list_elem_of_In, <- in_rev, <- list_elem_of_In.
  - cbn [strings.split_from] in Hin.
    destruct (String.prefix (String c "") (String b s)) eqn:Hp.
    + simpl in Hin. apply elem_of_cons in Hin as [->|Hin].
      * rewrite list_ascii_of_string_of_list_ascii.
      by rewrite list_elem_of_In, <- in_rev, <- list_elem_of_In.
      * eapply IH; [|exact Hin]. apply not_elem_of_nil.
    + eapply IH; [|exact Hin].
      apply not_elem_of_cons. split; [|done].
      intros ->. simpl in Hp. destruct (ascii_dec b b); [|done].
      by rewrite prefix_empty in Hp.
Qed.

(** [strings.Split] with a non-empty separator gives one piece more than
    [strings.Count] finds separators, so never an empty slice. *)
Lemma Split_length s sep :
  sep ≠ "" → length (strings.Split s sep) = S (strings.Count s sep).
Proof.
  intros Hsep. destruct sep as [|a sep]; [done|].
  apply split_from_length.
Qed.

(** Joining the pieces of [strings.Split] with the separator gives the
    string back. *)
Lemma Join_Split s sep :
  sep ≠ "" → strings.Join (strings.Split s sep) sep = s.
Proof.
  intros Hsep. destruct sep as [|a sep]; [done|].
  unfold strings.Split. by rewrite Join_split_from.
Qed.

(** No piece of a split at a one-byte separator holds that byte. *)
Lemma Split_char_free c s piece :
  piece ∈ strings.Split s (String c "") → c ∉ list_ascii_of_string piece.
Proof. apply split_from_char_free, not_elem_of_nil. Qed.

End StringFacts.

(** ** More on construction *)

Section MoreConstruction.

Context `{Ext : Externals} `{Cst : Constants}.

(** Everything about a manager that [newManager] has returned. *)
Lemma newManager_fields σ m σ' :
  newManager σ = Returns (Some m, None) σ' →
  ∃ mgr g,
    m = fresh (dom (managers σ)) ∧ g = fresh (dom (groups σ))
    ∧ managers σ' = <[m := mgr]> (managers σ)
    ∧ groups σ'
      = <[g := {| id := drainingNodePoolId; manager := Some m;
                  minSize := 0; maxSize := 0; targetSize := 0;
                  region := "fsn1"; instanceType := "cx11" |}]> (groups σ)
    ∧ environ σ' = environ σ ∧ cloud σ' = cloud σ ∧ calls σ' = calls σ
    ∧ client mgr = hcloud_NewClient (getenv σ "HCLOUD_TOKEN")
    ∧ nodeGroups mgr = {[ drainingNodePoolId := g ]}
    ∧ apiCallContext mgr = context_Background
    ∧ cloudInit mgr = (base64_DecodeString (getenv σ "HCLOUD_CLOUD_INIT")).1
    ∧ image mgr
      = (if decide (getenv σ "HCLOUD_IMAGE" = "") then "ubuntu-20.04"
         else getenv σ "HCLOUD_IMAGE")
    ∧ nameTemplate mgr
      = (if decide (getenv σ "HCLOUD_NAME_TEMPLATE" = "") then None
         else (template_Parse "nameTemplate" nameTemplateFuncMap
                 (getenv σ "HCLOUD_NAME_TEMPLATE")).1)
    ∧ sshKeys mgr = strings.Split (getenv σ "HCLOUD_SSH_KEY") ",".
Proof.
  intros Hrun.
  destruct (newManager_inv _ _ _ Hrun) as (Htok & Hci & Htpl & Hdec).
  destruct (newManager_succeeds σ Htok Hci Htpl Hdec)
    as (σ'' & Hrun' & Hms & Hgs & Henv & Hcl & Hcs).
  rewrite Hrun in Hrun'. injection Hrun' as -> <-.
  eexists _, _. split_and!; try done.
Qed.

Lemma newManager_lookup σ m σ' mgr :
  newManager σ = Returns (Some m, None) σ' →
  managers σ' = <[m := mgr]> (managers σ) → managers σ' !! m = Some mgr.
Proof. intros _ ->. apply lookup_insert_eq. Qed.

Lemma draining_group_after_store σ m g g' grp' :
  draining_ptr σ m = Some g →
  draining_group (set_groups (<[g' := grp']> (groups σ)) σ) m
  = <[g' := grp']> (groups σ) !! g.
Proof.
  intros Hp. unfold draining_group.
  change (draining_ptr (set_groups _ σ) m) with (draining_ptr σ m).
  by rewrite Hp.
Qed.

Lemma newManager_total σ :
  ∃ r σ',
    newManager σ = Returns r σ'
    ∧ calls σ' = calls σ ∧ cloud σ' = cloud σ ∧ environ σ' = environ σ
    ∧ ((r.1 = None ∧ is_Some r.2 ∧ σ' = σ) ∨ (is_Some r.1 ∧ r.2 = None)).
Proof.
  destruct (decide (getenv σ "HCLOUD_TOKEN" = "")) as [Htok|Htok].
  { eexists _, σ. split; [by apply newManager_no_token|].
    split_and!; try done. left. by split_and!. }
  destruct (decide (getenv σ "HCLOUD_CLOUD_INIT" = "")) as [Hci|Hci].
  { eexists _, σ. split; [by apply newManager_no_cloud_init|].
    split_and!; try done. left. by split_and!. }
  destruct (decide (getenv σ "HCLOUD_NAME_TEMPLATE" ≠ ""
                    ∧ is_Some (template_Parse "nameTemplate" nameTemplateFuncMap
                                 (getenv σ "HCLOUD_NAME_TEMPLATE")).2))
    as [[Hyes [e He]]|Hgood].
  { eexists _, σ. split; [by apply (newManager_bad_template _ e)|].
    split_and!; try done. left. by split_and!. }
  assert (Htpl : getenv σ "HCLOUD_NAME_TEMPLATE" ≠ "" →
                 (template_Parse "nameTemplate" nameTemplateFuncMap
                    (getenv σ "HCLOUD_NAME_TEMPLATE")).2 = None).
  { intros Hyes.
    destruct (template_Parse "nameTemplate" nameTemplateFuncMap
                (getenv σ "HCLOUD_NAME_TEMPLATE")).2 as [e|] eqn:E; [|done].
    exfalso. apply Hgood. split; [done|]. by exists e. }
  destruct (base64_DecodeString (getenv σ "HCLOUD_CLOUD_INIT")).2 as [e|] eqn:E.
  { eexists _, σ. split; [by apply (newManager_bad_base64 _ e)|].
    split_and!; try done. left. by split_and!. }
  destruct (newManager_succeeds σ Htok Hci Htpl E)
    as (σ' & Hrun & _ & _ & Henv & Hcl & Hcs).
  eexists _, σ'. split; [exact Hrun|]. split_and!; try done. right. by split.
Qed.

(** X1. [newManager] always returns: it never panics, makes no call on
    the client and leaves the environment alone; and it returns either a
    nil manager with an error, the state being what it was, or a manager
    with a nil error, never both and never neither. *)
Theorem newManager_returns_manager_or_error σ :
  ∃ r σ',
    newManager σ = Returns r σ'
    ∧ calls σ' = calls σ ∧ cloud σ' = cloud σ ∧ environ σ' = environ σ
    ∧ ((r.1 = None ∧ is_Some r.2 ∧ σ' = σ) ∨ (is_Some r.1 ∧ r.2 = None)).
Proof. apply newManager_total. Qed.

(** X2. The manager that [newManager] returns holds the image named by
    [HCLOUD_IMAGE], or [ubuntu-20.04] when that variable is empty or
    unset, the decoded bytes of [HCLOUD_CLOUD_INIT] (not its base64 text),
    and a client built from [HCLOUD_TOKEN]. *)
Theorem newManager_image_default σ m σ' :
  newManager σ = Returns (Some m, None) σ' →
  ∃ mgr,
    managers σ' !! m = Some mgr
    ∧ (getenv σ "HCLOUD_IMAGE" = "" → image mgr = "ubuntu-20.04")
    ∧ (getenv σ "HCLOUD_IMAGE" ≠ "" → image mgr = getenv σ "HCLOUD_IMAGE")
    ∧ cloudInit mgr = (base64_DecodeString (getenv σ "HCLOUD_CLOUD_INIT")).1
    ∧ client mgr = hcloud_NewClient (getenv σ "HCLOUD_TOKEN").
Proof.
  intros Hrun.
  destruct (newManager_fields _ _ _ Hrun)
    as (mgr & g & _ & _ & Hms & _ & _ & _ & _ & Hc & _ & _ & Hci & Hi & _).
  exists mgr. split; [by eapply newManager_lookup|].
  rewrite Hi. split_and!; [intros H| intros H |done..].
  - by rewrite decide_True.
  - by rewrite decide_False.
Qed.

(** X3. The manager that [newManager] returns has no name template when
    [HCLOUD_NAME_TEMPLATE] is empty or unset; otherwise the variable was
    parsed, under the name [nameTemplate] and with the catalog
    [nameTemplateFuncMap], without error, and the manager holds the
    result. *)
Theorem newManager_keeps_parsed_template σ m σ' :
  newManager σ = Returns (Some m, None) σ' →
  ∃ mgr,
    managers σ' !! m = Some mgr
    ∧ (getenv σ "HCLOUD_NAME_TEMPLATE" = "" → nameTemplate mgr = None)
    ∧ (getenv σ "HCLOUD_NAME_TEMPLATE" ≠ "" →
         template_Parse "nameTemplate" nameTemplateFuncMap
           (getenv σ "HCLOUD_NAME_TEMPLATE")
         = (nameTemplate mgr, None)).
Proof.
  intros Hrun.
  destruct (newManager_inv _ _ _ Hrun) as (_ & _ & Htpl & _).
  destruct (newManager_fields _ _ _ Hrun)
    as (mgr & g & _ & _ & Hms & _ & _ & _ & _ & _ & _ & _ & _ & _ & Ht & _).
  exists mgr. split; [by eapply newManager_lookup|].
  rewrite Ht. split.
  - intros H. by rewrite decide_True.
  - intros H. rewrite decide_False by done. specialize (Htpl H).
    destruct (template_Parse _ _ _) as [t e]. simpl in *. by subst e.
Qed.

Lemma newManager_keeps_objects σ r σ' :
  newManager σ = Returns r σ' →
  (∀ a mgr, managers σ !! a = Some mgr → managers σ' !! a = Some mgr)
  ∧ (∀ a grp, groups σ !! a = Some grp → groups σ' !! a = Some grp).
Proof.
  intros Hrun.
  apply newManager_effect in Hrun
    as [->|(m & g & mgr & grp & Hfm & Hfg & Hms & Hgs)]; [done|].
  rewrite Hms, Hgs. split; intros a x Ha.
  - rewrite lookup_insert_ne; [done | congruence].
  - rewrite lookup_insert_ne; [done | congruence].
Qed.

Lemma newManager_keeps_draining σ r σ' :
  newManager σ = Returns r σ' →
  ∀ m g grp, draining_at σ m g grp → draining_at σ' m g grp.
Proof.
  intros Hrun. destruct (newManager_keeps_objects _ _ _ Hrun) as [Hm Hg].
  intros m g grp [(mgr & Hmm & Hk)%draining_ptr_inv Hgrp]. split.
  - apply draining_ptr_inv. exists mgr. split; [by apply Hm | done].
  - by apply Hg.
Qed.

(** X4. [newManager] leaves every manager and every node group that
    existed before as it was: what it allocates is new. In particular the
    draining group of an earlier manager keeps its counter. *)
Theorem newManager_keeps_existing σ r σ' :
  newManager σ = Returns r σ' →
  (∀ a mgr, managers σ !! a = Some mgr → managers σ' !! a = Some mgr)
  ∧ (∀ a grp, groups σ !! a = Some grp → groups σ' !! a = Some grp)
  ∧ (∀ m g grp, draining_at σ m g grp → draining_at σ' m g grp).
Proof.
  intros Hrun. destruct (newManager_keeps_objects _ _ _ Hrun) as [Hm Hg].
  split_and!; [done..|]. by apply (newManager_keeps_draining _ _ _ Hrun).
Qed.

(** X5. Two managers built one after the other are different objects
    with different draining groups: a node drained on the first raises the
    first one's counter to 1 and leaves the second one's at 0. *)
Theorem newManager_twice_independent σ m1 σ1 m2 σ2 node :
  newManager σ = Returns (Some m1, None) σ1 →
  newManager σ1 = Returns (Some m2, None) σ2 →
  m1 ≠ m2
  ∧ ∃ g1 g2 σ3,
      g1 ≠ g2
      ∧ draining_ptr σ2 m1 = Some g1 ∧ draining_ptr σ2 m2 = Some g2
      ∧ addNodeToDrainingPool (Some m1) node σ2 = Returns (Some g1, None) σ3
      ∧ targetSize <$> draining_group σ3 m1 = Some 1
      ∧ targetSize <$> draining_group σ3 m2 = Some 0.
Proof.
  intros Hrun1 Hrun2.
  destruct (newManager_fields _ _ _ Hrun1)
    as (mgr1 & g1 & Hm1 & Hg1 & Hms1 & Hgs1 & _ & _ & _ & _ & Hng1 & _).
  destruct (newManager_fields _ _ _ Hrun2)
    as (mgr2 & g2 & Hm2 & Hg2 & Hms2 & Hgs2 & _ & _ & _ & _ & Hng2 & _).
  assert (Hm : m1 ≠ m2).
  { intros <-. pose proof (is_fresh (dom (managers σ1))) as Hf.
    rewrite <- Hm2, Hms1 in Hf. set_solver. }
  assert (Hg : g1 ≠ g2).
  { intros <-. pose proof (is_fresh (dom (groups σ1))) as Hf.
    rewrite <- Hg2, Hgs1 in Hf. set_solver. }
  assert (Hd1 : draining_at σ2 m1 g1
                  {| id := drainingNodePoolId; manager := Some m1;
                     minSize := 0; maxSize := 0; targetSize := 0;
                     region := "fsn1"; instanceType := "cx11" |}).
  { split.
    - apply draining_ptr_inv. exists mgr1. split.
      + rewrite Hms2, lookup_insert_ne, Hms1 by done. apply lookup_insert_eq.
      + rewrite Hng1. apply lookup_singleton_eq.
    - rewrite Hgs2, lookup_insert_ne, Hgs1 by done. apply lookup_insert_eq. }
  assert (Hp2 : draining_ptr σ2 m2 = Some g2).
  { apply draining_ptr_inv. exists mgr2. split.
    - rewrite Hms2. apply lookup_insert_eq.
    - rewrite Hng2. apply lookup_singleton_eq. }
  split; [done|]. eexists g1, g2, _. split; [done|].
  split; [by destruct Hd1|]. split; [done|].
  split; [by apply addNodeToDrainingPool_run|].
  destruct Hd1 as [Hp1 _].
  rewrite !(draining_group_after_store _ _ _ _ _ Hp1).
  rewrite (draining_group_after_store _ _ _ _ _ Hp2).
  rewrite lookup_insert_eq, lookup_insert_ne by done.
  split; [by rewrite int_add_exact|].
  rewrite Hgs2. by rewrite lookup_insert_eq.
Qed.

(** X6. The manager that [newManager] returns never has an empty list
    of SSH keys: it holds one key more than [HCLOUD_SSH_KEY] has commas. *)
Theorem newManager_sshKeys_count σ m σ' :
  newManager σ = Returns (Some m, None) σ' →
  ∃ mgr,
    managers σ' !! m = Some mgr
    ∧ length (sshKeys mgr) = S (strings.Count (getenv σ "HCLOUD_SSH_KEY") ",").
Proof.
  intros Hrun.
  destruct (newManager_fields _ _ _ Hrun)
    as (mgr & g & _ & _ & Hms & _ & _ & _ & _ & _ & _ & _ & _ & _ & _ & Hk).
  exists mgr. split; [by eapply newManager_lookup|].
  rewrite Hk. by apply Split_length.
Qed.

(** X7. The SSH keys of the manager that [newManager] returns, joined
    with commas, are [HCLOUD_SSH_KEY] again: nothing of the variable is
    lost or trimmed (spaces around a key stay in the key), and no key
    holds a comma. *)
Theorem newManager_sshKeys_round_trip σ m σ' :
  newManager σ = Returns (Some m, None) σ' →
  ∃ mgr,
    managers σ' !! m = Some mgr
    ∧ strings.Join (sshKeys mgr) "," = getenv σ "HCLOUD_SSH_KEY"
    ∧ ∀ key, key ∈ sshKeys mgr → ","%char ∉ list_ascii_of_string key.
Proof.
  intros Hrun.
  destruct (newManager_fields _ _ _ Hrun)
    as (mgr & g & _ & _ & Hms & _ & _ & _ & _ & _ & _ & _ & _ & _ & _ & Hk).
  exists mgr. split; [by eapply newManager_lookup|].
  rewrite Hk. split; [by apply Join_Split|].
  intros key. apply Split_char_free.
Qed.

End MoreConstruction.

(** ** More on the operations *)

Section MoreOperations.

Context `{Ext : Externals} `{Cst : Constants}.

Lemma int_wrap_is_int z : is_int (int_wrap z).
Proof.
  unfold is_int, int_wrap, min_int, max_int, int_bits.
  pose proof (Z.mod_pos_bound (z - - 2 ^ (64 - 1)) (2 ^ 64)). lia.
Qed.

Lemma int_wrap_add_l a b : int_wrap (int_wrap a + b) = int_wrap (a + b).
Proof.
  unfold int_wrap, min_int, int_bits. f_equal.
  replace ((a - - 2 ^ (64 - 1)) mod 2 ^ 64 + - 2 ^ (64 - 1) + b - - 2 ^ (64 - 1))
    with ((a - - 2 ^ (64 - 1)) mod 2 ^ 64 + b) by lia.
  replace (a + b - - 2 ^ (64 - 1)) with (a - - 2 ^ (64 - 1) + b) by lia.
  by rewrite Zplus_mod_idemp_l.
Qed.

Lemma allServers_run σ m mgr nodeGroup :
  managers σ !! m = Some mgr →
  allServers (Some m) nodeGroup σ
  = let opts :=
      {| ServerListOpts_ListOpts :=
           {| PerPage := 50;
              LabelSelector := nodeGroupLabel +:+ "=" +:+ nodeGroup |} |} in
    let ans := Server_AllWithOpts (client mgr) (apiCallContext mgr) opts (cloud σ) in
    Returns
      match ans.1.2 with
      | Some err =>
          ([], Some (errorString
                 ("failed to get servers for hcloud: " +:+ ext_error_Error err)))
      | None => (ans.1.1, None)
      end
      (after_call (CallServerAllWithOpts opts) ans.2 σ).
Proof.
  intros Hm. unfold allServers.
  rewrite (bind_Returns _ _ _ _ _ (load_manager_at _ _ _ Hm)).
  unfold bind, client_Server_AllWithOpts.
  destruct (Server_AllWithOpts _ _ _ _) as [[l [e|]] w]; done.
Qed.

(** X8. [allServers] makes one call on the client: a listing with page
    size 50 and the label selector [nodeGroupLabel=<group>], which is a
    different selector for a different group. Without an error from the
    client it returns the servers listed as they are, an empty list too;
    with an error it returns no servers, whatever the client listed, and
    the error behind [failed to get servers for hcloud: ]. The managers and
    the node groups are as before. *)
Theorem allServers_lists_by_label σ m mgr nodeGroup :
  managers σ !! m = Some mgr →
  let selector g := nodeGroupLabel +:+ "=" +:+ g in
  let opts :=
    {| ServerListOpts_ListOpts :=
         {| PerPage := 50; LabelSelector := selector nodeGroup |} |} in
  let ans := Server_AllWithOpts (client mgr) (apiCallContext mgr) opts (cloud σ) in
  ∃ r σ',
    allServers (Some m) nodeGroup σ = Returns r σ'
    ∧ calls σ' = calls σ ++ [CallServerAllWithOpts opts]
    ∧ store_kept σ σ'
    ∧ (ans.1.2 = None → r = (ans.1.1, None))
    ∧ (∀ e, ans.1.2 = Some e →
         r = ([], Some (errorString
                  ("failed to get servers for hcloud: " +:+ ext_error_Error e))))
    ∧ (∀ g, selector g = selector nodeGroup → g = nodeGroup).
Proof.
  intros Hm selector opts ans. subst ans opts.
  rewrite (allServers_run _ _ _ _ Hm). cbn zeta. fold (selector nodeGroup).
  destruct (Server_AllWithOpts _ _ _ _) as [[l [e|]] w]; simpl;
    (eexists _, _; split; [reflexivity|]; split_and!; try done).
  - by intros e' [= <-].
  - intros g Hg. unfold selector in Hg.
    by do 2 apply (inj (String.append _)) in Hg.
  - intros g Hg. unfold selector in Hg.
    by do 2 apply (inj (String.append _)) in Hg.
Qed.

Lemma deleteByNode_run σ m mgr n :
  managers σ !! m = Some mgr →
  deleteByNode (Some m) (Some n) σ
  = let get :=
      Server_Get (client mgr) (apiCallContext mgr) (nodeIdOrName n) (cloud σ) in
    let σ1 := after_call (CallServerGet (nodeIdOrName n)) get.2 σ in
    match get.1.2, get.1.1 with
    | Some e, _ =>
        Returns (Some (errorString
                   ("failed to delete node " +:+ Name n +:+ " error: "
                    +:+ "failed to get servers for node " +:+ Name n
                    +:+ " error: " +:+ ext_error_Error e))) σ1
    | None, None =>
        Returns (Some (errorString
                   ("failed to delete node " +:+ Name n +:+ " server not found")))
          σ1
    | None, Some s =>
        let del :=
          Server_Delete (client mgr) (apiCallContext mgr) (Some s) get.2 in
        Returns (external <$> del.1)
          (after_call (CallServerDelete (Some s)) del.2 σ1)
    end.
Proof.
  intros Hm. unfold deleteByNode.
  rewrite (bind_Returns _ _ _ _ _ (serverForNode_run _ _ _ _ Hm)).
  destruct (Server_Get _ _ _ _) as [[[s|] [e|]] w]; simpl; try done.
  by rewrite (deleteServer_run _ _ mgr).
Qed.

(** X9. [deleteByNode] returns a nil error exactly when the lookup gave
    a server without error and the client's delete of that server returned
    no error; the calls made are then that lookup and the delete of that
    very server, in this order. *)
Theorem deleteByNode_succeeds_iff σ m mgr n :
  managers σ !! m = Some mgr →
  let get :=
    Server_Get (client mgr) (apiCallContext mgr) (nodeIdOrName n) (cloud σ) in
  (returned (deleteByNode (Some m) (Some n) σ) = Some None
   ↔ ∃ s, get.1 = (Some s, None)
          ∧ (Server_Delete (client mgr) (apiCallContext mgr) (Some s) get.2).1
            = None)
  ∧ (returned (deleteByNode (Some m) (Some n) σ) = Some None →
     ∃ s, get.1.1 = Some s
          ∧ calls <$> final (deleteByNode (Some m) (Some n) σ)
            = Some (calls σ ++ [CallServerGet (nodeIdOrName n);
                                CallServerDelete (Some s)])).
Proof.
  intros Hm get. subst get. rewrite (deleteByNode_run _ _ _ _ Hm).
  destruct (Server_Get _ _ _ _) as [[[s|] [e|]] w]; simpl.
  - split; [split; [done | by intros (? & [=] & _)] | done].
  - destruct (Server_Delete _ _ _ _) as [[e|] w'] eqn:Hdel; simpl.
    + split; [split; [done|] | done].
      intros (s' & [= <-] & H). by rewrite Hdel in H.
    + split.
      * split; [|done]. intros _. exists s. by rewrite Hdel.
      * intros _. exists s. split; [done|]. by rewrite <- app_assoc.
  - split; [split; [done | by intros (? & [=] & _)] | done].
  - split; [split; [done | by intros (? & [=] & _)] | done].
Qed.

Lemma serverForNode_inv m node σ r σ' :
  serverForNode m node σ = Returns r σ' →
  ∃ a mgr n, m = Some a ∧ node = Some n ∧ managers σ !! a = Some mgr.
Proof.
  unfold serverForNode. intros H.
  destruct node as [n|]; [|done].
  apply bind_inv in H as (n' & σ0 & Hn & H). injection Hn as <- <-.
  apply bind_inv in H as (mgr & σ1 & Hm & _).
  apply load_manager_inv in Hm as (-> & a & -> & Hm).
  by exists a, mgr, n.
Qed.

Lemma deleteByNode_inv m node σ r σ' :
  deleteByNode m node σ = Returns r σ' →
  ∃ a mgr n, m = Some a ∧ node = Some n ∧ managers σ !! a = Some mgr.
Proof.
  unfold deleteByNode. intros H.
  apply bind_inv in H as (x & σ0 & Hx & _). by eapply serverForNode_inv.
Qed.

Lemma allServers_inv m nodeGroup σ r σ' :
  allServers m nodeGroup σ = Returns r σ' →
  ∃ a mgr, m = Some a ∧ managers σ !! a = Some mgr.
Proof.
  unfold allServers. intros H.
  apply bind_inv in H as (mgr & σ1 & Hm & _).
  apply load_manager_inv in Hm as (-> & a & -> & Hm). eauto.
Qed.

Lemma deleteServer_inv m s σ r σ' :
  deleteServer m s σ = Returns r σ' →
  ∃ a mgr, m = Some a ∧ managers σ !! a = Some mgr.
Proof.
  unfold deleteServer. intros H.
  apply bind_inv in H as (mgr & σ1 & Hm & _).
  apply load_manager_inv in Hm as (-> & a & -> & Hm). eauto.
Qed.

Lemma addNodeToDrainingPool_inv m node σ r σ' :
  addNodeToDrainingPool m node σ = Returns r σ' →
  ∃ a g grp, m = Some a ∧ draining_at σ a g grp.
Proof.
  unfold addNodeToDrainingPool. intros H.
  apply bind_inv in H as (mgr & σ0 & Hm & H).
  apply load_manager_inv in Hm as (-> & a & -> & Hm).
  apply bind_inv in H as (grp & σ0 & Hg & _).
  apply load_group_inv in Hg as (-> & g & Hg & Hgrp).
  exists a, g, grp. split; [done|]. split; [|done].
  apply draining_ptr_inv. eauto.
Qed.

(** X10. The calls an operation makes on the client: whatever operation
    returns has added to the recorded calls exactly its footprint (nothing
    for [newManager], [Refresh] and [addNodeToDrainingPool]; one listing,
    one lookup or one delete for [allServers], [serverForNode] and
    [deleteServer]; a lookup, then at most one delete, for
    [deleteByNode]), and has left the environment alone. *)
Theorem operation_footprint op σ r σ' :
  perform op σ = Returns r σ' →
  ∃ l, calls σ' = calls σ ++ l ∧ footprint op l ∧ environ σ' = environ σ.
Proof.
  intros H. destruct op as [|m|m ng|m node|m s|m node|m node]; simpl in H;
    apply bind_inv in H as (r0 & σ0 & H0 & H); injection H as _ <-.
  - exists []. rewrite app_nil_r.
    destruct (newManager_total σ) as (r1 & σ1 & Hr & Hc & _ & He & _).
    rewrite H0 in Hr. injection Hr as _ <-. done.
  - injection H0 as _ <-. exists []. by rewrite app_nil_r.
  - destruct (allServers_inv _ _ _ _ _ H0) as (a & mgr & -> & Hm).
    rewrite (allServers_run _ _ _ _ Hm) in H0. injection H0 as _ <-.
    eexists. by split_and!.
  - destruct (deleteByNode_inv _ _ _ _ _ H0) as (a & mgr & n & -> & -> & Hm).
    rewrite (deleteByNode_run _ _ _ _ Hm) in H0. cbn zeta in H0.
    destruct (Server_Get _ _ _ _) as [[[s|] [e|]] w]; simpl in H0;
      injection H0 as _ <-; simpl.
    + eexists. split_and!; [done | | done]. exists n. split; [done|]. by left.
    + eexists. split_and!; [by rewrite <- app_assoc | | done].
      exists n. split; [done|]. right. by exists s.
    + eexists. split_and!; [done | | done]. exists n. split; [done|]. by left.
    + eexists. split_and!; [done | | done]. exists n. split; [done|]. by left.
  - destruct (deleteServer_inv _ _ _ _ _ H0) as (a & mgr & -> & Hm).
    rewrite (deleteServer_run _ _ _ _ Hm) in H0. injection H0 as _ <-.
    eexists. by split_and!.
  - destruct (addNodeToDrainingPool_inv _ _ _ _ _ H0) as (a & g & grp & -> & Hd).
    rewrite (addNodeToDrainingPool_run _ _ _ _ _ Hd) in H0.
    injection H0 as _ <-. exists []. by rewrite app_nil_r.
  - destruct (serverForNode_inv _ _ _ _ _ H0) as (a & mgr & n & -> & -> & Hm).
    rewrite (serverForNode_run _ _ _ _ Hm) in H0. injection H0 as _ <-.
    eexists. split_and!; [done | | done]. by exists n.
Qed.

Lemma perform_kept op σ r σ' :
  op ≠ OpNewManager → is_drain op = false →
  perform op σ = Returns r σ' → store_kept σ σ'.
Proof.
  intros Hnew Hdrain H.
  destruct op as [|m|m ng|m node|m s|m node|m node]; try done; simpl in H;
    apply bind_inv in H as (r0 & σ0 & H0 & H); injection H as _ <-.
  - by injection H0 as _ <-.
  - by eapply allServers_kept.
  - by eapply deleteByNode_kept.
  - by eapply deleteServer_kept.
  - by eapply serverForNode_kept.
Qed.

(** X11. Looking servers up, listing them and deleting them never
    changes a manager or a node group: after [Refresh], [allServers],
    [serverForNode], [deleteServer] and [deleteByNode] every [targetSize]
    is what it was, also when a server has just been deleted. *)
Theorem lookups_and_deletes_keep_registry op σ r σ' :
  op ≠ OpNewManager → is_drain op = false →
  perform op σ = Returns r σ' →
  managers σ' = managers σ ∧ groups σ' = groups σ.
Proof. apply perform_kept. Qed.

(** X12. The identifier a node is looked up by. A provider identifier
    that starts with the scheme prefix is looked up by what follows the
    prefix, once: an identifier that is nothing but the prefix is looked up
    by the empty string, not by the node's name. A non-empty provider
    identifier that does not start with the prefix is looked up whole. *)
Theorem serverForNode_identifier σ m mgr name pid :
  managers σ !! m = Some mgr →
  pid ≠ "" →
  ∃ r σ',
    serverForNode (Some m) (Some {| Name := name; ProviderID := pid |}) σ
    = Returns r σ'
    ∧ (∀ rest, pid = providerIDPrefix +:+ rest →
         calls σ' = calls σ ++ [CallServerGet rest])
    ∧ (strings.HasPrefix pid providerIDPrefix = false →
         calls σ' = calls σ ++ [CallServerGet pid]).
Proof.
  intros Hm Hpid. eexists _, _. split; [by apply serverForNode_run|].
  simpl. unfold nodeIdOrName. simpl. rewrite decide_True by done.
  unfold strings.TrimPrefix, strings.HasPrefix. split.
  - intros rest ->. by rewrite prefix_append, drop_append.
  - by intros ->.
Qed.

(** X13. [serverForNode] and [deleteByNode] dereference the node and the
    manager: called with a nil node or on a nil manager they panic, so
    whenever one of them returns, the node is not nil and the manager is
    allocated. [addNodeToDrainingPool] never looks at the node and uses no
    client: it returns exactly when the manager is allocated and holds a
    draining group, and panics otherwise. *)
Theorem operations_panic_on_nil σ m node :
  (node = None ∨ m = None →
     serverForNode m node σ = Panics ∧ deleteByNode m node σ = Panics)
  ∧ (∀ r σ', serverForNode m node σ = Returns r σ' →
       is_Some node ∧ ∃ a, m = Some a ∧ is_Some (managers σ !! a))
  ∧ (∀ r σ', deleteByNode m node σ = Returns r σ' →
       is_Some node ∧ ∃ a, m = Some a ∧ is_Some (managers σ !! a))
  ∧ ((∃ r σ', addNodeToDrainingPool m node σ = Returns r σ')
     ↔ ∃ a g grp, m = Some a ∧ draining_at σ a g grp)
  ∧ ((¬ ∃ a g grp, m = Some a ∧ draining_at σ a g grp) →
       addNodeToDrainingPool m node σ = Panics).
Proof.
  split_and!.
  - intros Hnil. split.
    + destruct (serverForNode m node σ) as [r σ'|] eqn:H; [|done].
      destruct (serverForNode_inv _ _ _ _ _ H) as (a & mgr & n & -> & -> & _).
      by destruct Hnil.
    + destruct (deleteByNode m node σ) as [r σ'|] eqn:H; [|done].
      destruct (deleteByNode_inv _ _ _ _ _ H) as (a & mgr & n & -> & -> & _).
      by destruct Hnil.
  - intros r σ' H.
    destruct (serverForNode_inv _ _ _ _ _ H) as (a & mgr & n & -> & -> & Hm).
    split; [done|]. exists a. by rewrite Hm.
  - intros r σ' H.
    destruct (deleteByNode_inv _ _ _ _ _ H) as (a & mgr & n & -> & -> & Hm).
    split; [done|]. exists a. by rewrite Hm.
  - split.
    + intros (r & σ' & H). by eapply addNodeToDrainingPool_inv.
    + intros (a & g & grp & -> & Hd).
      eexists _, _. by apply addNodeToDrainingPool_run.
  - intros Hno.
    destruct (addNodeToDrainingPool m node σ) as [r σ'|] eqn:H; [|done].
    destruct Hno. by eapply addNodeToDrainingPool_inv.
Qed.

(** X14. [addNodeToDrainingPool] writes one object: every other node
    group, the set of allocated groups and all the managers (their maps of
    groups too) are what they were. *)
Theorem addNodeToDrainingPool_writes_one_group σ m g grp node r σ' :
  draining_at σ m g grp →
  addNodeToDrainingPool (Some m) node σ = Returns r σ' →
  managers σ' = managers σ
  ∧ dom (groups σ') = dom (groups σ)
  ∧ ∀ g', g' ≠ g → groups σ' !! g' = groups σ !! g'.
Proof.
  intros Hd H. rewrite (addNodeToDrainingPool_run _ _ _ _ _ Hd) in H.
  injection H as _ <-. simpl. destruct Hd as [_ Hgrp].
  split_and!; [done | |].
  - by apply dom_insert_lookup_L.
  - intros g' Hne. by rewrite lookup_insert_ne.
Qed.

Lemma perform_cases op :
  op = OpNewManager
  ∨ is_drain op = true
  ∨ (op ≠ OpNewManager ∧ is_drain op = false).
Proof. destruct op; by eauto. Qed.

Lemma perform_step op σ r σ' m g grp :
  draining_at σ m g grp →
  (is_drain op = true → receiver op = Some m) →
  perform op σ = Returns r σ' →
  draining_at σ' m g
    (if is_drain op then set_targetSize (int_add (targetSize grp) 1) grp
     else grp).
Proof.
  intros Hd Hrec H.
  destruct (is_drain op) eqn:Hdr.
  - destruct op; try discriminate Hdr. simpl in Hrec, H.
    rewrite (Hrec eq_refl) in H.
    apply bind_inv in H as (r0 & σ0 & H0 & H). injection H as _ <-.
    rewrite (addNodeToDrainingPool_run _ _ _ _ _ Hd) in H0.
    injection H0 as _ <-. by apply draining_at_bump.
  - destruct (perform_cases op) as [-> | [Hdr' | [Hnew _]]]; [|congruence|].
    + simpl in H. apply bind_inv in H as (r0 & σ0 & H0 & H).
      injection H as _ <-.
      by apply (newManager_keeps_draining _ _ _ H0).
    + destruct (perform_kept _ _ _ _ Hnew Hdr H) as [Hms Hgs].
      destruct Hd as [(mgr & Hm & Hk)%draining_ptr_inv Hgrp]. split.
      * apply draining_ptr_inv. exists mgr. by rewrite Hms.
      * by rewrite Hgs.
Qed.

(** X15. The draining counter counts the calls of
    [addNodeToDrainingPool], whatever else happens in between: after any
    sequence of operations that returns, in which the nodes are drained on
    the manager at [m], its draining group is the one it was with
    [targetSize] raised by the number of those calls (on [int], so modulo
    2^64); lookups, listings, deletes, [Refresh] and further [newManager]s
    in between do not count. *)
Theorem perform_all_counts_drains ops : ∀ σ σ' m g grp,
  draining_at σ m g grp →
  is_int (targetSize grp) →
  (∀ op, op ∈ ops → is_drain op = true → receiver op = Some m) →
  perform_all ops σ = Returns tt σ' →
  draining_at σ' m g
    (set_targetSize (int_wrap (targetSize grp + Z.of_nat (drains ops))) grp).
Proof.
  induction ops as [|op ops IH]; intros σ σ' m g grp Hd Hint Hrec H.
  - injection H as <-. simpl.
    by rewrite Z.add_0_r, int_wrap_id, set_targetSize_same.
  - cbn [perform_all] in H.
    apply bind_inv in H as ([] & σ1 & H1 & H).
    pose proof (perform_step op σ tt σ1 m g grp Hd
                  (Hrec op (list_elem_of_here _ _)) H1) as Hd1.
    assert (Hrec' : ∀ op', op' ∈ ops → is_drain op' = true → receiver op' = Some m).
    { intros op' Hin. apply Hrec. by apply list_elem_of_further. }
    unfold drains. cbn [filter list_filter].
    destruct (is_drain op) eqn:Hdr.
    + rewrite decide_True by done. cbn [length].
      specialize (IH σ1 σ' m g _ Hd1 (int_wrap_is_int _) Hrec' H).
      simpl in IH. unfold int_add in IH. rewrite int_wrap_add_l in IH.
      replace (targetSize grp + 1 + Z.of_nat (drains ops))
        with (targetSize grp + Z.of_nat (S (drains ops))) in IH by lia.
      exact IH.
    + rewrite decide_False by done.
      exact (IH σ1 σ' m g _ Hd1 Hint Hrec' H).
Qed.

End MoreOperations.

(** ** The store stays in order *)

Section WellFormed.

Context `{Ext : Externals} `{Cst : Constants}.

Lemma well_formed_kept σ σ' :
  store_kept σ σ' → well_formed σ → well_formed σ'.
Proof.
  intros [Hms Hgs] Hwf m mgr Hm. rewrite Hms in Hm.
  destruct (Hwf m mgr Hm) as [Hall (g & grp & [Hp Hgrp] & Hb)]. split.
  - intros k g' Hk. rewrite Hgs. by apply Hall.
  - exists g, grp. split; [|done]. split; [|by rewrite Hgs].
    apply draining_ptr_inv. apply draining_ptr_inv in Hp as (mgr' & Hm' & Hk).
    exists mgr'. by rewrite Hms.
Qed.

Lemma well_formed_drain σ σ' g2 grp2 :
  managers σ' = managers σ →
  groups σ !! g2 = Some grp2 →
  groups σ' = <[g2 := set_targetSize (int_add (targetSize grp2) 1) grp2]> (groups σ) →
  well_formed σ → well_formed σ'.
Proof.
  intros Hms Hgrp2 Hgs Hwf m mgr Hm. rewrite Hms in Hm.
  destruct (Hwf m mgr Hm) as [Hall (g & grp & [Hp Hgrp] & Hmin & Hmax & Hint)].
  split.
  - intros k g' Hk. destruct (Hall k g' Hk) as (grp' & Hg' & Hid & Hback).
    rewrite Hgs. destruct (decide (g2 = g')) as [->|Hne].
    + rewrite lookup_insert_eq. eexists. split; [done|].
      assert (grp2 = grp') as -> by congruence. done.
    + rewrite lookup_insert_ne by done. eauto.
  - assert (Hp' : draining_ptr σ' m = Some g).
    { apply draining_ptr_inv. apply draining_ptr_inv in Hp as (mgr' & Hm' & Hk).
      exists mgr'. by rewrite Hms. }
    destruct (decide (g2 = g)) as [->|Hne].
    + assert (grp2 = grp) as -> by congruence.
      eexists g, _. split; [split; [done|]|].
      * rewrite Hgs. apply lookup_insert_eq.
      * simpl. split_and!; [done..|]. apply int_wrap_is_int.
    + exists g, grp. split; [split; [done|]|done].
      rewrite Hgs. by rewrite lookup_insert_ne.
Qed.

Lemma well_formed_newManager σ r σ' :
  newManager σ = Returns r σ' → well_formed σ → well_formed σ'.
Proof.
  intros Hrun Hwf.
  destruct (newManager_total σ) as (r1 & σ1 & Hr & _ & _ & _ & Hshape).
  rewrite Hrun in Hr. injection Hr as <- <-.
  destruct Hshape as [(_ & _ & ->)|[[m0 Hm0] He]]; [done|].
  destruct r as [r1 r2]. simpl in *. subst r1 r2.
  destruct (newManager_fields _ _ _ Hrun)
    as (mgr0 & g0 & Hmf & Hgf & Hms & Hgs & _ & _ & _ & _ & Hng & _).
  assert (Hfm : managers σ !! m0 = None).
  { subst m0. apply not_elem_of_dom, is_fresh. }
  assert (Hfg : groups σ !! g0 = None).
  { subst g0. apply not_elem_of_dom, is_fresh. }
  intros m mgr Hm. rewrite Hms in Hm.
  destruct (decide (m0 = m)) as [<-|Hne].
  - rewrite lookup_insert_eq in Hm. injection Hm as <-. split.
    + intros k g Hk. rewrite Hng in Hk.
      apply lookup_singleton_Some in Hk as [<- <-].
      rewrite Hgs, lookup_insert_eq. eexists. by split_and!.
    + eexists g0, _. split; [split|].
      * apply draining_ptr_inv. exists mgr0. rewrite Hms, lookup_insert_eq.
        split; [done|]. rewrite Hng. apply lookup_singleton_eq.
      * rewrite Hgs. apply lookup_insert_eq.
      * simpl. split_and!; [done..|]. by vm_compute.
  - rewrite lookup_insert_ne in Hm by done.
    destruct (Hwf m mgr Hm) as [Hall (g & grp & [Hp Hgrp] & Hb)]. split.
    + intros k g' Hk. destruct (Hall k g' Hk) as (grp' & Hg' & Hrest).
      exists grp'. split; [|done].
      rewrite Hgs, lookup_insert_ne; [done | congruence].
    + exists g, grp. split; [split|done].
      * apply draining_ptr_inv.
        apply draining_ptr_inv in Hp as (mgr' & Hm' & Hk).
        exists mgr'. split; [|done]. by rewrite Hms, lookup_insert_ne.
      * rewrite Hgs, lookup_insert_ne; [done | congruence].
Qed.

Lemma perform_well_formed op σ r σ' :
  perform op σ = Returns r σ' → well_formed σ → well_formed σ'.
Proof.
  intros H. destruct (perform_cases op) as [-> | [Hdr | [Hnew Hdr]]].
  - simpl in H. apply bind_inv in H as (r0 & σ0 & H0 & H).
    injection H as _ <-. by eapply well_formed_newManager.
  - destruct op; try discriminate Hdr. simpl in H.
    apply bind_inv in H as (r0 & σ0 & H0 & H). injection H as _ <-.
    apply addNodeToDrainingPool_effect in H0 as (Hms & g & grp & Hg & Hgs).
    by eapply well_formed_drain.
  - apply well_formed_kept. by eapply perform_kept.
Qed.

Lemma perform_all_well_formed ops : ∀ σ σ',
  perform_all ops σ = Returns tt σ' → well_formed σ → well_formed σ'.
Proof.
  induction ops as [|op ops IH]; intros σ σ' H Hwf.
  - by injection H as <-.
  - cbn [perform_all] in H. apply bind_inv in H as ([] & σ1 & H1 & H).
    eapply IH; [exact H|]. by eapply perform_well_formed.
Qed.

(** X16. In a process that starts without managers, whatever sequence of
    operations has run and returned, the store is in order: every group a
    manager holds under a key is allocated, has that key as its [id] and
    points back to that manager, and every manager holds a draining group
    with [minSize = 0] and [maxSize = 0]. So [addNodeToDrainingPool] on any
    manager that exists then returns, with a nil error: its nil dereference
    cannot happen. *)
Theorem reachable_store_well_formed ops σ σ' :
  managers σ = ∅ →
  perform_all ops σ = Returns tt σ' →
  well_formed σ'
  ∧ ∀ m mgr node, managers σ' !! m = Some mgr →
      ∃ g σ'', addNodeToDrainingPool (Some m) node σ' = Returns (Some g, None) σ''.
Proof.
  intros Hempty Hrun.
  assert (Hwf : well_formed σ').
  { eapply perform_all_well_formed; [exact Hrun|].
    intros m mgr Hm. by rewrite Hempty in Hm. }
  split; [done|]. intros m mgr node Hm.
  destruct (Hwf m mgr Hm) as [_ (g & grp & Hd & _)].
  eexists g, _. by apply addNodeToDrainingPool_run.
Qed.

End WellFormed.

(** ** The further properties on the scenarios *)

Example newManager_full_env :
  returned (newManager Scenario.σ_full_env) = Some (Some 1%positive, None)
  ∧ (managers (Scenario.state_after newManager Scenario.σ_full_env) !! 1%positive
     ≫= λ mgr, Some (image mgr, nameTemplate mgr, sshKeys mgr))
    = Some ("debian-11", Some "{{toUpper .GroupId}}-{{.Seq}}", ["alice"; " bob"]).
Proof. split; reflexivity. Qed.

Lemma newManager_image_default_witness :
  ∃ mgr,
    managers Scenario.σ1 !! 1%positive = Some mgr
    ∧ (getenv Scenario.σA "HCLOUD_IMAGE" = "" → image mgr = "ubuntu-20.04")
    ∧ (getenv Scenario.σA "HCLOUD_IMAGE" ≠ "" →
         image mgr = getenv Scenario.σA "HCLOUD_IMAGE")
    ∧ cloudInit mgr
      = (base64_DecodeString (getenv Scenario.σA "HCLOUD_CLOUD_INIT")).1
    ∧ client mgr = hcloud_NewClient (getenv Scenario.σA "HCLOUD_TOKEN").
Proof.
  apply (newManager_image_default Scenario.σA 1%positive Scenario.σ1).
  reflexivity.
Defined.

Lemma newManager_keeps_parsed_template_witness :
  ∃ mgr,
    managers (Scenario.state_after newManager Scenario.σ_full_env) !! 1%positive
    = Some mgr
    ∧ (getenv Scenario.σ_full_env "HCLOUD_NAME_TEMPLATE" = "" →
         nameTemplate mgr = None)
    ∧ (getenv Scenario.σ_full_env "HCLOUD_NAME_TEMPLATE" ≠ "" →
         template_Parse "nameTemplate" nameTemplateFuncMap
           (getenv Scenario.σ_full_env "HCLOUD_NAME_TEMPLATE")
         = (nameTemplate mgr, None)).
Proof.
  apply (newManager_keeps_parsed_template Scenario.σ_full_env 1%positive
           (Scenario.state_after newManager Scenario.σ_full_env)).
  reflexivity.
Defined.

Lemma newManager_keeps_existing_witness :
  (∀ a mgr, managers Scenario.σ1 !! a = Some mgr →
            managers (Scenario.state_after newManager Scenario.σ1) !! a = Some mgr)
  ∧ (∀ a grp, groups Scenario.σ1 !! a = Some grp →
              groups (Scenario.state_after newManager Scenario.σ1) !! a = Some grp)
  ∧ (∀ m g grp, draining_at Scenario.σ1 m g grp →
                draining_at (Scenario.state_after newManager Scenario.σ1) m g grp).
Proof.
  apply (newManager_keeps_existing Scenario.σ1 (Some 2%positive, None)
           (Scenario.state_after newManager Scenario.σ1)).
  reflexivity.
Defined.

Lemma newManager_twice_independent_witness :
  1%positive ≠ 2%positive
  ∧ ∃ g1 g2 σ3,
      g1 ≠ g2
      ∧ draining_ptr (Scenario.state_after newManager Scenario.σ1) 1%positive
        = Some g1
      ∧ draining_ptr (Scenario.state_after newManager Scenario.σ1) 2%positive
        = Some g2
      ∧ addNodeToDrainingPool (Some 1%positive) (Some Scenario.ghost)
          (Scenario.state_after newManager Scenario.σ1)
        = Returns (Some g1, None) σ3
      ∧ targetSize <$> draining_group σ3 1%positive = Some 1
      ∧ targetSize <$> draining_group σ3 2%positive = Some 0.
Proof.
  apply (newManager_twice_independent Scenario.σA 1%positive Scenario.σ1
           2%positive (Scenario.state_after newManager Scenario.σ1)
           (Some Scenario.ghost)); reflexivity.
Defined.

Lemma newManager_sshKeys_count_witness :
  ∃ mgr,
    managers (Scenario.state_after newManager Scenario.σ_full_env) !! 1%positive
    = Some mgr
    ∧ length (sshKeys mgr)
      = S (strings.Count (getenv Scenario.σ_full_env "HCLOUD_SSH_KEY") ",").
Proof.
  apply (newManager_sshKeys_count Scenario.σ_full_env 1%positive
           (Scenario.state_after newManager Scenario.σ_full_env)).
  reflexivity.
Defined.

Lemma newManager_sshKeys_round_trip_witness :
  ∃ mgr,
    managers (Scenario.state_after newManager Scenario.σ_full_env) !! 1%positive
    = Some mgr
    ∧ strings.Join (sshKeys mgr) ","
      = getenv Scenario.σ_full_env "HCLOUD_SSH_KEY"
    ∧ ∀ key, key ∈ sshKeys mgr → ","%char ∉ list_ascii_of_string key.
Proof.
  apply (newManager_sshKeys_round_trip Scenario.σ_full_env 1%positive
           (Scenario.state_after newManager Scenario.σ_full_env)).
  reflexivity.
Defined.

Lemma allServers_lists_by_label_witness :
  ∃ r σ',
    allServers (Some 1%positive) "pool1" Scenario.σ1 = Returns r σ'
    ∧ calls σ'
      = [CallServerAllWithOpts
           {| ServerListOpts_ListOpts :=
                {| PerPage := 50; LabelSelector := "hcloud/node-group=pool1" |} |}]
    ∧ r = ([Some Scenario.worker1], None).
Proof.
  destruct (allServers_lists_by_label Scenario.σ1 1%positive Scenario.manager_A
              "pool1" eq_refl)
    as (r & σ' & Hrun & Hcalls & _ & Hok & _).
  exists r, σ'. split; [exact Hrun|]. split; [exact Hcalls|].
  exact (Hok eq_refl).
Defined.

Lemma deleteByNode_succeeds_iff_witness :
  returned (deleteByNode (Some 1%positive) (Some Scenario.renamed) Scenario.σ1)
  = Some None
  ∧ ∃ s,
      Some s = Some Scenario.worker1
      ∧ calls <$> final (deleteByNode (Some 1%positive) (Some Scenario.renamed)
                           Scenario.σ1)
        = Some [CallServerGet "42"; CallServerDelete (Some s)].
Proof.
  destruct (deleteByNode_succeeds_iff Scenario.σ1 1%positive Scenario.manager_A
              Scenario.renamed eq_refl) as [Hiff Hcalls].
  assert (H : returned (deleteByNode (Some 1%positive) (Some Scenario.renamed)
                          Scenario.σ1) = Some None).
  { apply Hiff. exists Scenario.worker1. split; reflexivity. }
  split; [exact H|].
  destruct (Hcalls H) as (s & Hs & Hc). exists s. split; [|exact Hc].
  symmetry. exact Hs.
Defined.

Lemma operation_footprint_witness :
  ∃ l,
    calls (Scenario.state_after (perform Scenario.delete_renamed) Scenario.σ1)
    = calls Scenario.σ1 ++ l
    ∧ footprint Scenario.delete_renamed l
    ∧ environ (Scenario.state_after (perform Scenario.delete_renamed) Scenario.σ1)
      = environ Scenario.σ1.
Proof.
  apply (operation_footprint Scenario.delete_renamed Scenario.σ1 tt).
  reflexivity.
Defined.

Lemma lookups_and_deletes_keep_registry_witness :
  managers (Scenario.state_after (perform Scenario.delete_renamed) Scenario.σ1)
  = managers Scenario.σ1
  ∧ groups (Scenario.state_after (perform Scenario.delete_renamed) Scenario.σ1)
    = groups Scenario.σ1.
Proof.
  apply (lookups_and_deletes_keep_registry Scenario.delete_renamed Scenario.σ1 tt).
  - discriminate.
  - reflexivity.
  - reflexivity.
Defined.

Lemma serverForNode_identifier_witness :
  ∃ r σ',
    serverForNode (Some 1%positive)
      (Some {| Name := "node-a"; ProviderID := "hcloud://" |}) Scenario.σ1
    = Returns r σ'
    ∧ calls σ' = [CallServerGet ""].
Proof.
  destruct (serverForNode_identifier Scenario.σ1 1%positive Scenario.manager_A
              "node-a" "hcloud://" eq_refl)
    as (r & σ' & Hrun & Hpre & _); [discriminate|].
  exists r, σ'. split; [exact Hrun|]. exact (Hpre "" eq_refl).
Defined.

Example foreign_provider_id :
  calls <$> final (serverForNode (Some 1%positive)
                     (Some {| Name := "node-a"; ProviderID := "aws:///i-42" |})
                     Scenario.σ1)
  = Some [CallServerGet "aws:///i-42"].
Proof. reflexivity. Qed.

Lemma addNodeToDrainingPool_writes_one_group_witness :
  managers (Scenario.state_after (perform Scenario.drain_renamed) Scenario.σ1)
  = managers Scenario.σ1
  ∧ dom (groups (Scenario.state_after (perform Scenario.drain_renamed) Scenario.σ1))
    = dom (groups Scenario.σ1)
  ∧ ∀ g', g' ≠ 1%positive →
      groups (Scenario.state_after (perform Scenario.drain_renamed) Scenario.σ1) !! g'
      = groups Scenario.σ1 !! g'.
Proof.
  apply (addNodeToDrainingPool_writes_one_group Scenario.σ1 1%positive 1%positive
           Scenario.draining_A (Some Scenario.renamed) (Some 1%positive, None)).
  - split; reflexivity.
  - reflexivity.
Defined.

Lemma perform_all_counts_drains_witness :
  ∃ σ',
    perform_all Scenario.busy Scenario.σ1 = Returns tt σ'
    ∧ draining_at σ' 1%positive 1%positive
        (set_targetSize (int_wrap (0 + Z.of_nat (drains Scenario.busy)))
           Scenario.draining_A).
Proof.
  destruct (perform_all Scenario.busy Scenario.σ1) as [[] σ'|] eqn:E.
  - exists σ'. split; [reflexivity|].
    apply (perform_all_counts_drains Scenario.busy Scenario.σ1).
    + split; reflexivity.
    + vm_compute. split; discriminate.
    + intros op Hin Hdr.
      repeat (apply elem_of_cons in Hin as [->|Hin]; [done || discriminate Hdr|]).
      by apply elem_of_nil in Hin.
    + exact E.
  - assert (Hr : returned (perform_all Scenario.busy Scenario.σ1) = Some tt)
      by reflexivity.
    rewrite E in Hr. discriminate Hr.
Defined.

Example busy_day :
  targetSize <$> draining_group
                   (Scenario.state_after (perform_all Scenario.busy) Scenario.σ1)
                   1%positive = Some 2
  ∧ length (calls (Scenario.state_after (perform_all Scenario.busy) Scenario.σ1))
    = 4%nat.
Proof. split; reflexivity. Qed.

Lemma reachable_store_well_formed_witness :
  ∃ σ',
    perform_all (OpNewManager :: Scenario.busy) Scenario.σA = Returns tt σ'
    ∧ well_formed σ'
    ∧ ∀ m mgr node,
        managers σ' !! m = Some mgr →
        ∃ g σ'', addNodeToDrainingPool (Some m) node σ' = Returns (Some g, None) σ''.
Proof.
  destruct (perform_all (OpNewManager :: Scenario.busy) Scenario.σA)
    as [[] σ'|] eqn:E.
  - exists σ'. split; [reflexivity|].
    apply (reachable_store_well_formed (OpNewManager :: Scenario.busy) Scenario.σA);
      [reflexivity | exact E].
  - assert (Hr : returned (perform_all (OpNewManager :: Scenario.busy) Scenario.σA)
                 = Some tt) by reflexivity.
    rewrite E in Hr. discriminate Hr.
Defined.
